(** * Scattering-matrix stack engine and regularized eigensolver of fmmax

    Shallow embedding of [src/fmmax/scattering.py] and [src/fmmax/_eig.py].

    The scattering-matrix code only ever combines batched arrays through a
    handful of primitive operations ([@], [+], [-], broadcasting products with
    a vector, [utils.solve], [jnp.exp]).  The model is therefore written once
    over a [kernel] record that collects exactly those primitives; it is then
    instantiated with the operations of an arbitrary MathComp ring (for the
    algebraic theorems) and with complex numbers over the Stdlib reals (for a
    concrete evaluation with a real exponential). *)

From Stdlib Require Import String DecimalString.
From Stdlib Require Import Rdefinitions Raxioms RIneq Rtrigo_def Rtrigo1 Exp_prop Rpower.
From Stdlib Require Import Lra.

(** The Stdlib [ring] on [R], before MathComp's [ring] takes the name. *)
Ltac Rring := ring.
From mathcomp Require Import boot order algebra.

Set Implicit Arguments.
Unset Strict Implicit.
Unset Printing Implicit Defensive.

Import GRing.Theory.

(* ===================================================================== *)
(** * Errors raised by the Python code *)

Inductive error :=
| ValueError (msg : string)
| IndexError.

Inductive result (A : Type) :=
| Ok (a : A)
| Err (e : error).
Arguments Ok {A} a.
Arguments Err {A} e.

Definition bind_result {A B} (r : result A) (k : A -> result B) : result B :=
  match r with Ok a => k a | Err e => Err e end.

Definition map_result {A B} (f : A -> B) (r : result A) : result B :=
  bind_result r (fun a => Ok (f a)).

(** Decimal rendering of a Python [int] inside an f-string. *)
Definition show_nat (n : nat) : string :=
  NilEmpty.string_of_uint (Nat.to_uint n).

(** [t] contains [s] as a contiguous piece. *)
Definition mentions (t s : string) : Prop :=
  exists p q, t = (p ++ s ++ q)%string.

(** [jax.lax.scan]: threads a carry through [xs], stacking the outputs. *)
Fixpoint lax_scan {C X Y} (f : C -> X -> C * Y) (c : C) (xs : seq X)
  : C * seq Y :=
  match xs with
  | [::] => (c, [::])
  | x :: xs' =>
      let '(c', y) := f c x in
      let '(c'', ys) := lax_scan f c' xs' in
      (c'', y :: ys)
  end.

(* ===================================================================== *)
(** * The numeric kernel used by [scattering.py] *)

Module Scattering.

(** [mat] stands for batched [(..., N, N)] complex arrays, [vec] for batched
    [(..., N)] complex arrays (eigenvalues), [thick] for layer thicknesses and
    [tvf] for the payload of [LayerSolveResult.tangent_vector_field].
    Every array of one stack carries the common batch shape, so the
    broadcasting steps of the code do not show up in the values. *)
Record kernel := Kernel {
  mat : Type;
  vec : Type;
  thick : Type;
  tvf : Type;
  madd : mat -> mat -> mat;            (* a + b *)
  msub : mat -> mat -> mat;            (* a - b *)
  mmul : mat -> mat -> mat;            (* a @ b *)
  mneg : mat -> mat;                   (* -a *)
  mhalf : mat -> mat;                  (* 0.5 * a *)
  vdiag : vec -> mat;                  (* misc.diag(v) *)
  vrecip : vec -> vec;                 (* 1 / v *)
  vphase : vec -> thick -> vec;        (* jnp.exp(1j * q * t) *)
  tsub : thick -> thick -> thick;      (* t - t' *)
  eye_like : vec -> mat;               (* misc.diag(jnp.ones_like(v)) *)
  eye_like_mat : mat -> mat;           (* misc.diag(jnp.ones_like(a[..., 0])) *)
  zeros_like : mat -> mat;             (* jnp.zeros_like(a) *)
  solve : mat -> mat -> mat            (* utils.solve(a, b) *)
}.

Section Model.

Variable K : kernel.

#[local] Abbreviation mat := (@mat K).
#[local] Abbreviation vec := (@vec K).
#[local] Abbreviation thick := (@thick K).
#[local] Abbreviation tvf := (@tvf K).
#[local] Abbreviation madd := (@madd K).
#[local] Abbreviation msub := (@msub K).
#[local] Abbreviation mmul := (@mmul K).
#[local] Abbreviation mneg := (@mneg K).
#[local] Abbreviation mhalf := (@mhalf K).
#[local] Abbreviation vdiag := (@vdiag K).
#[local] Abbreviation vrecip := (@vrecip K).
#[local] Abbreviation vphase := (@vphase K).
#[local] Abbreviation tsub := (@tsub K).
#[local] Abbreviation eye_like := (@eye_like K).
#[local] Abbreviation eye_like_mat := (@eye_like_mat K).
#[local] Abbreviation zeros_like := (@zeros_like K).
#[local] Abbreviation solve := (@solve K).

(** [q[..., jnp.newaxis] * x]: scales row [i] of [x] by [q_i]. *)
Definition scale_rows (q : vec) (x : mat) : mat := mmul (vdiag q) x.

(** [x * q[..., jnp.newaxis, :]]: scales column [j] of [x] by [q_j]. *)
Definition scale_cols (x : mat) (q : vec) : mat := mmul x (vdiag q).

(** The attributes of [fmm.LayerSolveResult] read by [scattering.py]. *)
Record LayerSolveResult := {
  eigenvalues : vec;
  eigenvectors : mat;
  omega_script_k_matrix : mat;
  tangent_vector_field : option tvf
}.

(** [dataclasses.replace(solve_result, tangent_vector_field=None)]. *)
Definition strip_tangent (l : LayerSolveResult) : LayerSolveResult :=
  {| eigenvalues := eigenvalues l;
     eigenvectors := eigenvectors l;
     omega_script_k_matrix := omega_script_k_matrix l;
     tangent_vector_field := None |}.

(** Modelled from the spec: [fmm.broadcast_result] (not in src) broadcasts
    the arrays of a solve result to the common batch shape ("Mismatched batch
    shapes must broadcast per standard numeric broadcasting rules").  All
    arrays of the model already carry that shape, so the values, and an absent
    tangent vector field, are left as they are. *)
Definition broadcast_result (l : LayerSolveResult) : LayerSolveResult := l.

Record ScatteringMatrix := {
  s11 : mat;
  s12 : mat;
  s21 : mat;
  s22 : mat;
  start_layer_solve_result : LayerSolveResult;
  start_layer_thickness : thick;
  end_layer_solve_result : LayerSolveResult;
  end_layer_thickness : thick
}.

(** The four interface matrices [(i11, i12, i21, i22)] of equation 5.3 of
    [1999 Whittaker], computed identically (and with the same lines of code) by
    [_pair_s_matrix] and [_extend_s_matrix]; [i11 = i22] and [i12 = i21]. *)
Definition interface_matrices (layer_solve_result next_layer_solve_result :
    LayerSolveResult) : mat * mat * mat * mat :=
  let q := eigenvalues layer_solve_result in
  let phi := eigenvectors layer_solve_result in
  let omega_k := omega_script_k_matrix layer_solve_result in
  let next_q := eigenvalues next_layer_solve_result in
  let next_phi := eigenvectors next_layer_solve_result in
  let next_omega_k := omega_script_k_matrix next_layer_solve_result in
  let term1 := scale_rows q (solve (mmul omega_k phi)
                  (scale_cols (mmul next_omega_k next_phi) (vrecip next_q))) in
  let term2 := solve (mmul omega_k phi) (mmul omega_k next_phi) in
  let i11 := mhalf (madd term1 term2) in
  let i12 := mhalf (madd (mneg term1) term2) in
  (i11, i12, i12, i11).

(** [_pair_s_matrix]. *)
Definition _pair_s_matrix (layer_solve_result : LayerSolveResult)
    (layer_thickness : thick) (next_layer_solve_result : LayerSolveResult)
    (next_layer_thickness : thick) : ScatteringMatrix :=
  let '(i11, i12, i21, i22) :=
    interface_matrices layer_solve_result next_layer_solve_result in
  let fd := vphase (eigenvalues layer_solve_result) layer_thickness in
  let fd_next := vphase (eigenvalues next_layer_solve_result) next_layer_thickness in
  let fd_diag := vdiag fd in
  let s11 := solve i11 fd_diag in
  let s12 := solve i11 (scale_cols (mneg i12) fd_next) in
  let s21 := mmul i21 s11 in
  let s22 := madd (mmul i21 s12) (scale_cols i22 fd_next) in
  {| s11 := s11; s12 := s12; s21 := s21; s22 := s22;
     start_layer_solve_result := layer_solve_result;
     start_layer_thickness := layer_thickness;
     end_layer_solve_result := next_layer_solve_result;
     end_layer_thickness := next_layer_thickness |}.

(** [_extend_s_matrix]: equation 5.4 of [1999 Whittaker]. *)
Definition _extend_s_matrix (s_matrix_blocks : mat * mat * mat * mat)
    (layer_solve_result : LayerSolveResult) (layer_thickness : thick)
    (next_layer_solve_result : LayerSolveResult) (next_layer_thickness : thick)
  : mat * mat * mat * mat :=
  let '(i11, i12, i21, i22) :=
    interface_matrices layer_solve_result next_layer_solve_result in
  let fd := vphase (eigenvalues layer_solve_result) layer_thickness in
  let fd_next := vphase (eigenvalues next_layer_solve_result) next_layer_thickness in
  let '(s11, s12, s21, s22) := s_matrix_blocks in
  let term3 := msub i11 (mmul (scale_rows fd s12) i21) in
  let s11_next := solve term3 (scale_rows fd s11) in
  let s12_next := solve term3
                    (scale_cols (msub (mmul (scale_rows fd s12) i22) i12) fd_next) in
  let s21_next := madd (mmul (mmul s22 i21) s11_next) s21 in
  let s22_next := madd (mmul (mmul s22 i21) s12_next)
                    (scale_cols (mmul s22 i22) fd_next) in
  (s11_next, s12_next, s21_next, s22_next).

(** [append_layer]. *)
Definition append_layer (s_matrix : ScatteringMatrix)
    (next_layer_solve_result : LayerSolveResult) (next_layer_thickness : thick)
  : ScatteringMatrix :=
  let '(s11_next, s12_next, s21_next, s22_next) :=
    _extend_s_matrix (s11 s_matrix, s12 s_matrix, s21 s_matrix, s22 s_matrix)
      (end_layer_solve_result s_matrix) (end_layer_thickness s_matrix)
      next_layer_solve_result next_layer_thickness in
  {| s11 := s11_next; s12 := s12_next; s21 := s21_next; s22 := s22_next;
     start_layer_solve_result := start_layer_solve_result s_matrix;
     start_layer_thickness := start_layer_thickness s_matrix;
     end_layer_solve_result := next_layer_solve_result;
     end_layer_thickness := next_layer_thickness |}.

(** [prepend_layer]. *)
Definition prepend_layer (s_matrix : ScatteringMatrix)
    (next_layer_solve_result : LayerSolveResult) (next_layer_thickness : thick)
  : ScatteringMatrix :=
  let '(s22_next, s21_next, s12_next, s11_next) :=
    _extend_s_matrix (s22 s_matrix, s21 s_matrix, s12 s_matrix, s11 s_matrix)
      (start_layer_solve_result s_matrix) (start_layer_thickness s_matrix)
      next_layer_solve_result next_layer_thickness in
  {| s11 := s11_next; s12 := s12_next; s21 := s21_next; s22 := s22_next;
     start_layer_solve_result := next_layer_solve_result;
     start_layer_thickness := next_layer_thickness;
     end_layer_solve_result := end_layer_solve_result s_matrix;
     end_layer_thickness := end_layer_thickness s_matrix |}.

(** [redheffer_star_product]. *)
Definition redheffer_star_product (a b : ScatteringMatrix) : ScatteringMatrix :=
  let a_extended :=
    append_layer a (start_layer_solve_result b) (start_layer_thickness b) in
  let a11 := s11 a_extended in
  let a12 := s12 a_extended in
  let a21 := s21 a_extended in
  let a22 := s22 a_extended in
  let b11 := s11 b in
  let b12 := s12 b in
  let b21 := s21 b in
  let b22 := s22 b in
  let eye := eye_like_mat a11 in
  let s11 := mmul b11 (solve (msub eye (mmul a12 b21)) a11) in
  let s12 := madd b12 (mmul b11 (solve (msub eye (mmul a12 b21)) (mmul a12 b22))) in
  let s21 := madd a21 (mmul a22 (solve (msub eye (mmul b21 a12)) (mmul b21 a11))) in
  let s22 := mmul a22 (solve (msub eye (mmul b21 a12)) b22) in
  {| s11 := s11; s12 := s12; s21 := s21; s22 := s22;
     start_layer_solve_result := start_layer_solve_result a;
     start_layer_thickness := start_layer_thickness a;
     end_layer_solve_result := end_layer_solve_result b;
     end_layer_thickness := end_layer_thickness b |}.

(** [set_end_layer_thickness]. *)
Definition set_end_layer_thickness (s_matrix : ScatteringMatrix)
    (thickness : thick) : ScatteringMatrix :=
  let q := eigenvalues (end_layer_solve_result s_matrix) in
  let fd := vphase q (tsub thickness (end_layer_thickness s_matrix)) in
  {| s11 := s11 s_matrix;
     s12 := scale_cols (s12 s_matrix) fd;
     s21 := s21 s_matrix;
     s22 := scale_cols (s22 s_matrix) fd;
     start_layer_solve_result := start_layer_solve_result s_matrix;
     start_layer_thickness := start_layer_thickness s_matrix;
     end_layer_solve_result := end_layer_solve_result s_matrix;
     end_layer_thickness := thickness |}.

(** [set_start_layer_thickness]. *)
Definition set_start_layer_thickness (s_matrix : ScatteringMatrix)
    (thickness : thick) : ScatteringMatrix :=
  let q := eigenvalues (start_layer_solve_result s_matrix) in
  let fd := vphase q (tsub thickness (start_layer_thickness s_matrix)) in
  {| s11 := scale_cols (s11 s_matrix) fd;
     s12 := s12 s_matrix;
     s21 := scale_cols (s21 s_matrix) fd;
     s22 := s22 s_matrix;
     start_layer_solve_result := start_layer_solve_result s_matrix;
     start_layer_thickness := thickness;
     end_layer_solve_result := end_layer_solve_result s_matrix;
     end_layer_thickness := end_layer_thickness s_matrix |}.

(** The single-layer scattering matrix built at the start of
    [_stack_s_matrices] and of [stack_s_matrix_scan]. *)
Definition identity_s_matrix (layer_solve_result : LayerSolveResult)
    (layer_thickness : thick) : ScatteringMatrix :=
  let eye := eye_like (eigenvalues layer_solve_result) in
  {| s11 := eye; s12 := zeros_like eye; s21 := zeros_like eye; s22 := eye;
     start_layer_solve_result := layer_solve_result;
     start_layer_thickness := layer_thickness;
     end_layer_solve_result := layer_solve_result;
     end_layer_thickness := layer_thickness |}.

(** The [scan_fn] of [_stack_s_matrices] and of [stack_s_matrix_scan]. *)
Definition scan_fn (s_matrix : ScatteringMatrix)
    (args : LayerSolveResult * thick) : ScatteringMatrix * ScatteringMatrix :=
  let '(next_layer_solve_result, next_layer_thickness) := args in
  let s_matrix := append_layer s_matrix next_layer_solve_result next_layer_thickness in
  (s_matrix, s_matrix).

Definition msg_stack_lengths (n m : nat) : string :=
  ("`layer_solve_results` and `layer_thicknesses` should have the same "
   ++ "length but got " ++ show_nat n ++ " and " ++ show_nat m ++ ".")%string.

Definition msg_scan_lengths (n m : nat) : string :=
  ("`layer_solve_results` and `layer_thicknesses` should be compatible (i.e. "
   ++ "correspond to the same number of layers) but inferred layer numbers of "
   ++ show_nat n ++ " and " ++ show_nat m ++ ".")%string.

(** [_stack_s_matrices]. *)
Definition _stack_s_matrices (layer_solve_results : seq LayerSolveResult)
    (layer_thicknesses : seq thick) : result (seq ScatteringMatrix) :=
  if size layer_solve_results != size layer_thicknesses then
    Err (ValueError (msg_stack_lengths (size layer_solve_results)
                                       (size layer_thicknesses)))
  else
  let layer_solve_results := map strip_tangent layer_solve_results in
  let layer_solve_results := map broadcast_result layer_solve_results in
  match layer_solve_results, layer_thicknesses with
  | l0 :: rest, t0 :: trest =>
      let layer_s_matrix_0 := identity_s_matrix l0 t0 in
      match rest, trest with
      | [::], _ => Ok [:: layer_s_matrix_0]
      | l1 :: rest', t1 :: trest' =>
          let layer_s_matrix_1 := _pair_s_matrix l0 t0 l1 t1 in
          match rest' with
          | [::] => Ok [:: layer_s_matrix_0; layer_s_matrix_1]
          | _ :: _ =>
              let '(_, remaining_s_matrices) :=
                lax_scan scan_fn layer_s_matrix_1 (zip rest' trest') in
              Ok (layer_s_matrix_0 :: layer_s_matrix_1 :: remaining_s_matrices)
          end
      | _ :: _, [::] => Err IndexError
      end
  | _, _ => Err IndexError
  end.

(** [tuple[-1]]. *)
Definition last_item {A} (xs : seq A) : result A :=
  match xs with [::] => Err IndexError | x :: xs' => Ok (last x xs') end.

(** [stack_s_matrix]. *)
Definition stack_s_matrix (layer_solve_results : seq LayerSolveResult)
    (layer_thicknesses : seq thick) : result ScatteringMatrix :=
  bind_result (_stack_s_matrices layer_solve_results layer_thicknesses) last_item.

(** The block and start/end swap applied to the reversed stack. *)
Definition swap_s_matrix (s : ScatteringMatrix) : ScatteringMatrix :=
  {| s11 := s22 s; s12 := s21 s; s21 := s12 s; s22 := s11 s;
     start_layer_solve_result := end_layer_solve_result s;
     start_layer_thickness := end_layer_thickness s;
     end_layer_solve_result := start_layer_solve_result s;
     end_layer_thickness := start_layer_thickness s |}.

(** [stack_s_matrices_interior]. *)
Definition stack_s_matrices_interior (layer_solve_results : seq LayerSolveResult)
    (layer_thicknesses : seq thick)
  : result (seq (ScatteringMatrix * ScatteringMatrix)) :=
  bind_result (_stack_s_matrices layer_solve_results layer_thicknesses)
    (fun before =>
  bind_result (_stack_s_matrices (rev layer_solve_results) (rev layer_thicknesses))
    (fun reverse =>
  let after := map swap_s_matrix (rev reverse) in
  Ok (zip before after))).

(** [stack_s_matrix_scan]: the layers are stacked along the leading batch axis,
    i.e. [layer_solve_results] is the sequence of its slices [x[i, ...]], and
    [layer_thicknesses] is one-dimensional (the [assert ... ndim == 1]). *)
Definition stack_s_matrix_scan (layer_solve_results : seq LayerSolveResult)
    (layer_thicknesses : seq thick) : result ScatteringMatrix :=
  if size layer_solve_results != size layer_thicknesses then
    Err (ValueError (msg_scan_lengths (size layer_solve_results)
                                      (size layer_thicknesses)))
  else
  match layer_solve_results, layer_thicknesses with
  | start_solve_result :: rest, t0 :: trest =>
      let s_matrix := identity_s_matrix start_solve_result t0 in
      let '(s_matrix, _) := lax_scan scan_fn s_matrix (zip rest trest) in
      Ok s_matrix
  | _, _ => Err IndexError
  end.

End Model.

Arguments identity_s_matrix {K}.
Arguments _pair_s_matrix {K}.
Arguments append_layer {K}.
Arguments prepend_layer {K}.
Arguments redheffer_star_product {K}.
Arguments set_end_layer_thickness {K}.
Arguments _stack_s_matrices {K}.
Arguments stack_s_matrix {K}.
Arguments stack_s_matrices_interior {K}.
Arguments stack_s_matrix_scan {K}.
Arguments swap_s_matrix {K}.
Arguments strip_tangent {K}.

(** Vocabulary of the statements below. *)

(** The four blocks of a scattering matrix. *)
Definition blocks {K : kernel} (s : ScatteringMatrix K) : mat K * mat K * mat K * mat K :=
  (s11 s, s12 s, s21 s, s22 s).

(** A [None] tangent vector field. *)
Definition no_tangent {K : kernel} (l : LayerSolveResult K) : bool :=
  if tangent_vector_field l is None then true else false.

(** Both stored solve results of [s] have [tangent_vector_field = None]. *)
Definition stripped {K : kernel} (s : ScatteringMatrix K) : bool :=
  no_tangent (start_layer_solve_result s) && no_tangent (end_layer_solve_result s).

(** The start and end solve results stored in [s] carry no tangent vector
    field, and differ from every supplied solve result that carries one. *)
Definition stored_without_tangent {K : kernel} (ls : seq (LayerSolveResult K))
    (s : ScatteringMatrix K) : Prop :=
  tangent_vector_field (start_layer_solve_result s) = None /\
  tangent_vector_field (end_layer_solve_result s) = None /\
  (forall l, List.In l ls -> tangent_vector_field l <> None ->
     start_layer_solve_result s <> l /\ end_layer_solve_result s <> l).

(** Two solve results with the same eigenvalues, eigenvectors and
    omega-script-k matrix. *)
Definition same_modes {K : kernel} (l l' : LayerSolveResult K) : Prop :=
  eigenvalues l = eigenvalues l' /\ eigenvectors l = eigenvectors l' /\
  omega_script_k_matrix l = omega_script_k_matrix l'.

(** [s] and [s'] have the same blocks, and end in the same layer modes with
    the same end thickness: what [append_layer] reads of its argument. *)
Definition agree {K : kernel} (s s' : ScatteringMatrix K) : Prop :=
  blocks s = blocks s' /\
  same_modes (end_layer_solve_result s) (end_layer_solve_result s') /\
  end_layer_thickness s = end_layer_thickness s'.

(** One step of the sequential reduction, [append_layer] on a pair. *)
Definition append_step {K : kernel} (s : ScatteringMatrix K)
    (a : LayerSolveResult K * thick K) : ScatteringMatrix K :=
  append_layer s a.1 a.2.

(** The matrix [term3] that [_extend_s_matrix] solves against when
    [append_layer s l t] runs ([t] does not enter it). *)
Definition append_term3 {K : kernel} (s : ScatteringMatrix K)
    (l : LayerSolveResult K) : mat K :=
  let '(i11, _, i21, _) := interface_matrices (end_layer_solve_result s) l in
  let fd := vphase (eigenvalues (end_layer_solve_result s)) (end_layer_thickness s) in
  msub i11 (mmul (scale_rows fd (s12 s)) i21).

(** The matrix [eye - a12 @ b21] that [redheffer_star_product a b] solves
    against. *)
Definition star_term {K : kernel} (a b : ScatteringMatrix K) : mat K :=
  let a_extended :=
    append_layer a (start_layer_solve_result b) (start_layer_thickness b) in
  msub (eye_like_mat (s11 a_extended)) (mmul (s12 a_extended) (s21 b)).

(** The kernel of a MathComp ring [M] of (batched) complex matrices.  A
    vector [q] is represented by its diagonal matrix [diag(q)], so [vdiag] is
    the identity and the identity matrix of any shape is [1].  The scalar
    [0.5], the elementwise [1 / q], the phase [exp(1j * q * t)], the thickness
    difference and [utils.solve] are parameters. *)
Definition ring_kernel (M : unitRingType) (T X : Type) (half : M)
    (recip : M -> M) (phase : M -> T -> M) (tminus : T -> T -> T)
    (solver : M -> M -> M) : kernel :=
  {| mat := M; vec := M; thick := T; tvf := X;
     madd := fun a b => (a + b)%R;
     msub := fun a b => (a - b)%R;
     mmul := fun a b => (a * b)%R;
     mneg := fun a => (- a)%R;
     mhalf := fun a => (half * a)%R;
     vdiag := fun q => q;
     vrecip := recip;
     vphase := phase;
     tsub := tminus;
     eye_like := fun _ => 1%R;
     eye_like_mat := fun _ => 1%R;
     zeros_like := fun _ => 0%R;
     solve := solver |}.

(** A concrete [ring_kernel] over the rationals (scalar stacks with [N = 1]),
    used to evaluate the statements below on concrete stacks: every phase
    factor is [1] (all thicknesses are [tt]), [1 / q] is the inverse and
    [utils.solve(a, b)] is [a^-1 b]. *)
Definition rat_kernel : kernel :=
  @ring_kernel rat unit unit (2%:R)^-1 GRing.inv (fun _ _ => 1%R) (fun _ _ => tt)
    (fun a b => (a^-1 * b)%R).

(** A solve result of [rat_kernel] with eigenvalue [q], eigenvectors and
    omega-script-k matrix [1], and tangent vector field [tvf]. *)
Definition rat_layer (q : rat) (tvf : option unit) : LayerSolveResult rat_kernel :=
  @Build_LayerSolveResult rat_kernel q 1%R 1%R tvf.

(** A second concrete [ring_kernel] over the rationals (scalar stacks with
    [N = 1]) whose thicknesses are integers: the phase factor of thickness
    [t] is [2 ^ t], which keeps the laws of [jnp.exp(1j * q * t)] used below
    ([2 ^ t0 * 2 ^ (t - t0) = 2 ^ t], [2 ^ 0 = 1]), so that a change of
    thickness rescales the matrices. *)
Definition ratz_kernel : kernel :=
  @ring_kernel rat int unit (2%:R)^-1 GRing.inv (fun _ t => ((2%:R : rat) ^ t)%R)
    (fun a b => (a - b)%R) (fun a b => (a^-1 * b)%R).

(** A solve result of [ratz_kernel] with eigenvalue [q], eigenvectors and
    omega-script-k matrix [1], and tangent vector field [tvf]. *)
Definition ratz_layer (q : rat) (tvf : option unit) : LayerSolveResult ratz_kernel :=
  @Build_LayerSolveResult ratz_kernel q 1%R 1%R tvf.

(** Complex numbers over the Stdlib reals, with [jnp.exp] as the real
    exponential: the kernel of a stack with a single expansion term ([N = 1])
    and no batch dimensions. *)
Module ComplexR.

Local Open Scope R_scope.

Record C := mkC { re : R; im : R }.

Definition Cadd (a b : C) : C := mkC (re a + re b) (im a + im b).
Definition Csub (a b : C) : C := mkC (re a - re b) (im a - im b).
Definition Cneg (a : C) : C := mkC (- re a) (- im a).
Definition Cmul (a b : C) : C :=
  mkC (re a * re b - im a * im b) (re a * im b + im a * re b).
Definition Cinv (a : C) : C :=
  let d := re a * re a + im a * im a in mkC (re a / d) (- im a / d).
Definition Cexp (a : C) : C :=
  mkC (exp (re a) * cos (im a)) (exp (re a) * sin (im a)).
Definition C0 : C := mkC 0 0.
Definition C1 : C := mkC 1 0.
Definition Ci : C := mkC 0 1.
Definition of_real (t : R) : C := mkC t 0.

Definition kernel1 : kernel :=
  {| mat := C; vec := C; thick := R; tvf := unit;
     madd := Cadd; msub := Csub; mmul := Cmul; mneg := Cneg;
     mhalf := Cmul (mkC (/ 2) 0);
     vdiag := fun q => q;
     vrecip := Cinv;
     vphase := fun q t => Cexp (Cmul (Cmul Ci q) (of_real t));
     tsub := Rminus;
     eye_like := fun _ => C1;
     eye_like_mat := fun _ => C1;
     zeros_like := fun _ => C0;
     solve := fun a b => Cmul (Cinv a) b |}.

End ComplexR.

End Scattering.

(* ===================================================================== *)
(** * The differentiable eigensolver [_eig.py] *)

Module Eig.

Local Open Scope ring_scope.

Section Model.

(** Real numbers of the computation. *)
Variable F : realFieldType.

Record cplx := Cplx { re : F; im : F }.

Definition czero : cplx := Cplx 0 0.
Definition cadd (a b : cplx) : cplx := Cplx (re a + re b) (im a + im b).
Definition csub (a b : cplx) : cplx := Cplx (re a - re b) (im a - im b).
Definition cmul (a b : cplx) : cplx :=
  Cplx (re a * re b - im a * im b) (re a * im b + im a * re b).
Definition cconj (a : cplx) : cplx := Cplx (re a) (- im a).
(** [jnp.abs(z) ** 2]. *)
Definition cabs2 (a : cplx) : F := re a ^+ 2 + im a ^+ 2.
(** A complex number divided by a real one. *)
Definition cdiv_real (a : cplx) (r : F) : cplx := Cplx (re a / r) (im a / r).
(** [jnp.real(z)] as a complex array entry. *)
Definition creal (a : cplx) : cplx := Cplx (re a) 0.

(** Arrays: a vector is a [seq cplx] of length [N], a matrix is the
    row-major [seq (seq cplx)] of an [N x N] array. *)
Definition cvec := seq cplx.
Definition cmat := seq (seq cplx).

Definition entry (a : cmat) (r c : nat) : cplx := nth czero (nth [::] a r) c.
Definition mk_mat (n : nat) (f : nat -> nat -> cplx) : cmat :=
  [seq [seq f r c | c <- iota 0 n] | r <- iota 0 n].
(** [a @ b]. *)
Definition matmul (n : nat) (a b : cmat) : cmat :=
  mk_mat n (fun r c => foldr cadd czero [seq cmul (entry a r k) (entry b k c) | k <- iota 0 n]).
(** Elementwise [a * b]. *)
Definition emul (a b : cmat) : cmat := [seq [seq cmul x y | '(x, y) <- zip ra rb] | '(ra, rb) <- zip a b].
Definition eadd (a b : cmat) : cmat := [seq [seq cadd x y | '(x, y) <- zip ra rb] | '(ra, rb) <- zip a b].
Definition esub (a b : cmat) : cmat := [seq [seq csub x y | '(x, y) <- zip ra rb] | '(ra, rb) <- zip a b].
Definition mconj (a : cmat) : cmat := [seq [seq cconj x | x <- ra] | ra <- a].
(** [_misc.diag(v)]. *)
Definition diag (v : cvec) : cmat :=
  mk_mat (size v) (fun r c => if r == c then nth czero v r else czero).
(** [_misc.matrix_adjoint(a)]: the conjugate transpose. *)
Definition matrix_adjoint (n : nat) (a : cmat) : cmat :=
  mk_mat n (fun r c => cconj (entry a c r)).

(** [_EIG_EPS_RELATIVE] and [_EIG_EPS_MINIMUM] ([1e-12] and [1e-24]). *)
Definition _EIG_EPS_RELATIVE : F := (10%:R ^+ 12)^-1.
Definition _EIG_EPS_MINIMUM : F := (10%:R ^+ 24)^-1.

(** [delta_eig = eigenvalues[..., newaxis, :] - eigenvalues[..., :, newaxis]],
    i.e. entry [(r, c)] is [eigenvalues[c] - eigenvalues[r]]. *)
Definition delta_eig (eigenvalues : cvec) : cmat :=
  [seq [seq csub ec er | ec <- eigenvalues] | er <- eigenvalues].

(** [jnp.amax(jnp.abs(delta_eig) ** 2, axis=(-2, -1))] for one batch element:
    the maximum over the trailing two axes.  The entries are non-negative and
    the diagonal ones are [0], so folding [max] from [0] gives the maximum
    when [N >= 1].  For [N = 0] [jnp.amax] of the empty array raises, where
    this fold returns [0]: the statements below about it assume [N >= 1]. *)
Definition amax_abs2 (d : cmat) : F :=
  foldr Num.max 0 [seq foldr Num.max 0 [seq cabs2 z | z <- row] | row <- d].

(** [eps = jnp.maximum(eps_relative * eig_range_sq, _EIG_EPS_MINIMUM)]. *)
Definition eig_eps (eps_relative : F) (eigenvalues : cvec) : F :=
  Num.max (eps_relative * amax_abs2 (delta_eig eigenvalues)) _EIG_EPS_MINIMUM.

(** [f_broadened], after [f_broadened.at[..., i, i].set(0)]. *)
Definition f_broadened (eps_relative : F) (eigenvalues : cvec) : cmat :=
  let d := delta_eig eigenvalues in
  let eps := eig_eps eps_relative eigenvalues in
  let f := [seq [seq cdiv_real (cconj z) (cabs2 z + eps) | z <- row] | row <- d] in
  mk_mat (size eigenvalues) (fun r c => if r == c then czero else entry f r c).

(** [utils]/[jax] primitives that the module calls but does not define:
    [jnp.linalg.solve] and the forward eigendecomposition [_eig]. *)
Variable linalg_solve : cmat -> cmat -> cmat.
Variable _eig : cmat -> cvec * cmat.

(** [eig]: the primal evaluation ([del eps_relative; return _eig(matrix)]). *)
Definition eig (matrix : cmat) (eps_relative : F) : cvec * cmat :=
  _eig matrix.

(** [_eig_fwd]. *)
Definition _eig_fwd (matrix : cmat) (eps_relative : F)
  : (cvec * cmat) * (cvec * cmat * F) :=
  let '(eigenvalues, eigenvectors) := _eig matrix in
  ((eigenvalues, eigenvectors), (eigenvalues, eigenvectors, eps_relative)).

(** [_eig_bwd] for one batch element: returns [grad_matrix] and [None] for
    [eps_relative]. *)
Definition _eig_bwd (res : cvec * cmat * F) (grads : cvec * cmat)
  : cmat * option F :=
  let '(eigenvalues, eigenvectors, eps_relative) := res in
  let '(grad_eigenvalues, grad_eigenvectors) := grads in
  let dim := size eigenvalues in
  let f := f_broadened eps_relative eigenvalues in
  let grad_eigenvalues_conj := map cconj grad_eigenvalues in
  let grad_eigenvectors_conj := mconj grad_eigenvectors in
  let eigenvectors_H := matrix_adjoint dim eigenvectors in
  let vh_g := matmul dim eigenvectors_H grad_eigenvectors_conj in
  let masked := mk_mat dim (fun r c => if r == c then creal (entry vh_g r c) else czero) in
  let rhs :=
    matmul dim
      (esub (eadd (diag grad_eigenvalues_conj) (emul (mconj f) vh_g))
            (matmul dim (emul (mconj f) (matmul dim eigenvectors_H eigenvectors)) masked))
      eigenvectors_H in
  let grad_matrix := linalg_solve eigenvectors_H rhs in
  (mconj grad_matrix, None).

(** [_eig_bwd] on a batch: the arrays carry a leading batch axis, here the
    sequence of batch elements, while [eps_relative] is one scalar.  Every
    operation of [_eig_bwd] acts on the trailing axes: the elementwise ones,
    [@], [jnp.linalg.solve], and [jnp.amax(..., axis=(-2, -1))]. *)
Definition _eig_bwd_batched (res : seq cvec * seq cmat * F)
    (grads : seq cvec * seq cmat) : seq cmat * option F :=
  let '(eigenvalues, eigenvectors, eps_relative) := res in
  let '(grad_eigenvalues, grad_eigenvectors) := grads in
  ([seq (_eig_bwd (ev, evec, eps_relative) (gv, gvec)).1
     | '((ev, evec), (gv, gvec)) <- zip (zip eigenvalues eigenvectors)
                                      (zip grad_eigenvalues grad_eigenvectors)],
   None).

End Model.

End Eig.

(* ===================================================================== *)
(** * Facts about the scattering-matrix engine *)

Module ScatteringFacts.

Import Scattering.

Lemma string_append_assoc (a b c : string) :
  (a ++ (b ++ c) = (a ++ b) ++ c)%string.
Proof. by elim: a => [|x a IH] //=; rewrite IH. Qed.

Lemma mentions_app_l (a b c : string) : mentions b c -> mentions (a ++ b)%string c.
Proof.
  case=> p [q ->]; exists (a ++ p)%string, q.
  by rewrite string_append_assoc.
Qed.

Lemma mentions_app_r (b c : string) : mentions (c ++ b)%string c.
Proof. by exists EmptyString, b. Qed.

Ltac mentions_tac :=
  repeat first [apply: mentions_app_r | apply: mentions_app_l].

Lemma msg_stack_lengths_mentions n m :
  mentions (msg_stack_lengths n m) (show_nat n) /\
  mentions (msg_stack_lengths n m) (show_nat m).
Proof. by rewrite /msg_stack_lengths; split; mentions_tac. Qed.

Lemma msg_scan_lengths_mentions n m :
  mentions (msg_scan_lengths n m) (show_nat n) /\
  mentions (msg_scan_lengths n m) (show_nat m).
Proof. by rewrite /msg_scan_lengths; split; mentions_tac. Qed.

Lemma lax_scan_cons {C X Y} (f : C -> X -> C * Y) c x xs :
  lax_scan f c (x :: xs) =
  ((lax_scan f (f c x).1 xs).1, (f c x).2 :: (lax_scan f (f c x).1 xs).2).
Proof. rewrite /=; case: (f c x) => c' y /=; by case: (lax_scan f c' xs). Qed.

Section Generic.

Variable K : kernel.

Lemma append_layer_ends (s : ScatteringMatrix K) l t :
  start_layer_solve_result (append_layer s l t) = start_layer_solve_result s /\
  end_layer_solve_result (append_layer s l t) = l.
Proof. rewrite /append_layer; by case: (_extend_s_matrix _ _ _ _ _) => [[[a b] c] d]. Qed.

Lemma append_layer_stripped (s : ScatteringMatrix K) l t :
  stripped s -> no_tangent l -> stripped (append_layer s l t).
Proof.
  case/andP=> Hs _ Hl; rewrite /stripped.
  by case: (append_layer_ends s l t) => -> ->; rewrite Hs Hl.
Qed.

Lemma lax_scan_stripped (c : ScatteringMatrix K) xs :
  stripped c -> all (fun x => no_tangent x.1) xs ->
  stripped (lax_scan (@scan_fn K) c xs).1 &&
  all stripped (lax_scan (@scan_fn K) c xs).2.
Proof.
  elim: xs c => [|[l t] xs IH] c Hc; first by rewrite /= Hc.
  rewrite lax_scan_cons => /andP [Hl Hxs] /=.
  have Hc' := append_layer_stripped t Hc Hl.
  by case/andP: (IH _ Hc' Hxs) => -> ->; rewrite Hc'.
Qed.

Lemma all_no_tangent_strip (ls : seq (LayerSolveResult K)) :
  all no_tangent (map strip_tangent ls).
Proof. by elim: ls => //= l ls ->. Qed.

Lemma all_zip_fst {A B} (P : pred A) (xs : seq A) (ys : seq B) :
  all P xs -> all (fun x => P x.1) (zip xs ys).
Proof.
  elim: xs ys => [|x xs IH] [|y ys] //= /andP [Hx Hxs].
  by rewrite Hx IH.
Qed.

Lemma _stack_s_matrices_stripped (ls : seq (LayerSolveResult K))
    (ts : seq (thick K)) ss :
  _stack_s_matrices ls ts = Ok ss -> all stripped ss.
Proof.
  rewrite /_stack_s_matrices; case: ifP => // _.
  have := all_no_tangent_strip ls; rewrite /broadcast_result map_id.
  case: (map strip_tangent ls) => [|l0 [|l1 rest]] //=; case: ts => [|t0 [|t1 trest]] //=.
  - by case/andP=> H0 _ [<-]; rewrite /= /stripped /= H0.
  - by case/andP=> H0 _ [<-]; rewrite /= /stripped /= H0.
  - case/and3P=> H0 H1 Hrest.
    have Hid : stripped (identity_s_matrix l0 t0) by rewrite /stripped /= H0.
    have Hpair : stripped (_pair_s_matrix l0 t0 l1 t1) by rewrite /stripped /= H0 H1.
    case: rest Hrest => [|l2 rest] Hrest.
      by case=> <-; rewrite /= Hid Hpair.
    have Hz := all_zip_fst trest Hrest.
    move: (lax_scan_stripped Hpair Hz).
    case: (lax_scan _ _ _) => c ys /= /andP [_ Hys] [<-].
    by rewrite /= Hid Hpair Hys.
Qed.

Lemma last_item_all (P : pred (ScatteringMatrix K)) ss s :
  all P ss -> last_item ss = Ok s -> P s.
Proof.
  case: ss => [|x ss] //= /andP [Hx Hss] [<-].
  elim: ss x Hx Hss => [|y ss IH] x Hx //= /andP [Hy Hss].
  exact: IH.
Qed.

Lemma stripped_stored (ls : seq (LayerSolveResult K)) s :
  stripped s -> stored_without_tangent ls s.
Proof.
  rewrite /stripped /no_tangent.
  case Hs: (tangent_vector_field (start_layer_solve_result s)) => [x|] //.
  case He: (tangent_vector_field (end_layer_solve_result s)) => [x|] // _.
  split=> //; split=> // l _ Hl; split=> Heq; apply: Hl; by rewrite -Heq.
Qed.

Lemma all_In {A} (P : pred A) xs x : all P xs -> List.In x xs -> P x.
Proof. elim: xs => //= y xs IH /andP [Hy Hxs] [<-|/IH]; auto. Qed.

Lemma In_zip {A B} (xs : seq A) (ys : seq B) p :
  List.In p (zip xs ys) -> List.In p.1 xs /\ List.In p.2 ys.
Proof.
  elim: xs ys => [|x xs IH] [|y ys] //= [<-|/IH [H1 H2]]; tauto.
Qed.

Lemma all_stripped_swap (ss : seq (ScatteringMatrix K)) :
  all stripped ss -> all stripped (map swap_s_matrix ss).
Proof.
  elim: ss => //= s ss IH /andP [Hs Hss]; rewrite IH // andbT.
  by move: Hs; rewrite /stripped /= andbC.
Qed.

(** C10: every scattering matrix returned by [stack_s_matrix] and by
    [stack_s_matrices_interior] stores start and end solve results whose
    [tangent_vector_field] is [None]; when a supplied solve result carries a
    tangent vector field, the stored solve results differ from it. *)
Theorem stored_solve_results_without_tangent (ls : seq (LayerSolveResult K))
    (ts : seq (thick K)) :
  (forall s, stack_s_matrix ls ts = Ok s -> stored_without_tangent ls s) /\
  (forall ps, stack_s_matrices_interior ls ts = Ok ps ->
     forall p, List.In p ps ->
       stored_without_tangent ls p.1 /\ stored_without_tangent ls p.2).
Proof.
  split.
  - move=> s; rewrite /stack_s_matrix.
    case H: (_stack_s_matrices ls ts) => [ss|e] //= Hs.
    apply: stripped_stored; exact: (last_item_all (_stack_s_matrices_stripped H) Hs).
  - move=> ps; rewrite /stack_s_matrices_interior.
    case Hb: (_stack_s_matrices ls ts) => [before|e] //=.
    case Hr: (_stack_s_matrices (rev ls) (rev ts)) => [reverse|e] //= [<-] p Hp.
    have Hbs := _stack_s_matrices_stripped Hb.
    have Has : all stripped (map swap_s_matrix (rev reverse)).
      by apply: all_stripped_swap; rewrite all_rev; exact: (_stack_s_matrices_stripped Hr).
    case: (In_zip Hp) => H1 H2.
    by split; apply: stripped_stored; [exact: (all_In Hbs H1) | exact: (all_In Has H2)].
Qed.

(** C5: [prepend_layer] is [append_layer] on the block-swapped matrix
    (s11 <-> s22, s12 <-> s21, start <-> end), swapped back. *)
Theorem prepend_layer_is_swapped_append (s : ScatteringMatrix K)
    (l : LayerSolveResult K) (t : thick K) :
  prepend_layer s l t = swap_s_matrix (append_layer (swap_s_matrix s) l t).
Proof.
  rewrite /prepend_layer /append_layer /swap_s_matrix.
  by case: (_extend_s_matrix _ _ _ _ _) => [[[a b] c] d].
Qed.

Lemma _stack_s_matrices_no_value_error (ls : seq (LayerSolveResult K))
    (ts : seq (thick K)) msg :
  size ls = size ts -> _stack_s_matrices ls ts <> Err (ValueError msg).
Proof.
  move=> H; rewrite /_stack_s_matrices H eqxx /broadcast_result map_id.
  case: (map strip_tangent ls) => [|l0 [|l1 [|l2 rest]]] //=;
    case: ts {H} => [|t0 [|t1 trest]] //=.
  by case: (lax_scan _ _ _).
Qed.

Lemma stack_s_matrix_no_value_error (ls : seq (LayerSolveResult K))
    (ts : seq (thick K)) msg :
  size ls = size ts -> stack_s_matrix ls ts <> Err (ValueError msg).
Proof.
  move=> H; rewrite /stack_s_matrix.
  have := @_stack_s_matrices_no_value_error ls ts msg H.
  case: (_stack_s_matrices ls ts) => [ss|e] /= Hne.
  - by case: ss {Hne}.
  - by move=> [E]; apply: Hne; rewrite E.
Qed.

Lemma stack_s_matrix_scan_no_value_error (ls : seq (LayerSolveResult K))
    (ts : seq (thick K)) msg :
  size ls = size ts -> stack_s_matrix_scan ls ts <> Err (ValueError msg).
Proof.
  move=> H; rewrite /stack_s_matrix_scan H eqxx.
  case: ls ts {H} => [|l0 rest] [|t0 trest] //=.
  by case: (lax_scan _ _ _).
Qed.

(** C7: a length mismatch between the solve results and the thicknesses
    makes [_stack_s_matrices] and [stack_s_matrix] (and, for the leading
    batch dimension, [stack_s_matrix_scan]) return a [ValueError] whose
    message names both sizes, and which depends on nothing but the two sizes
    (no numeric work precedes it); equal lengths never give this error. *)
Theorem length_mismatch_value_error (ls : seq (LayerSolveResult K))
    (ts : seq (thick K)) :
  (size ls != size ts ->
     let msg := msg_stack_lengths (size ls) (size ts) in
     _stack_s_matrices ls ts = Err (ValueError msg) /\
     stack_s_matrix ls ts = Err (ValueError msg) /\
     mentions msg (show_nat (size ls)) /\ mentions msg (show_nat (size ts))) /\
  (size ls != size ts ->
     let msg := msg_scan_lengths (size ls) (size ts) in
     stack_s_matrix_scan ls ts = Err (ValueError msg) /\
     mentions msg (show_nat (size ls)) /\ mentions msg (show_nat (size ts))) /\
  (size ls = size ts -> forall msg,
     _stack_s_matrices ls ts <> Err (ValueError msg) /\
     stack_s_matrix ls ts <> Err (ValueError msg) /\
     stack_s_matrix_scan ls ts <> Err (ValueError msg)).
Proof.
  split; [|split].
  - move=> H /=.
    have E : _stack_s_matrices ls ts =
             Err (ValueError (msg_stack_lengths (size ls) (size ts))).
      by rewrite /_stack_s_matrices H.
    by rewrite /stack_s_matrix E /=; split=> //; split=> //;
      exact: msg_stack_lengths_mentions.
  - move=> H /=; rewrite /stack_s_matrix_scan H; split=> //.
    exact: msg_scan_lengths_mentions.
  - move=> H msg; split; [|split].
    + exact: _stack_s_matrices_no_value_error.
    + exact: stack_s_matrix_no_value_error.
    + exact: stack_s_matrix_scan_no_value_error.
Qed.

Lemma same_modes_refl (l : LayerSolveResult K) : same_modes l l.
Proof. by []. Qed.

Lemma same_modes_strip (l : LayerSolveResult K) : same_modes (strip_tangent l) l.
Proof. by []. Qed.

Lemma agree_trans (a b c : ScatteringMatrix K) :
  agree a b -> agree b c -> agree a c.
Proof.
  move=> [E1 [[F1 [G1 H1]] T1]] [E2 [[F2 [G2 H2]] T2]].
  split; first by rewrite E1.
  by split; [split; [|split]|]; congruence.
Qed.

Lemma interface_matrices_modes (l1 l1' l2 l2' : LayerSolveResult K) :
  same_modes l1 l1' -> same_modes l2 l2' ->
  interface_matrices l1 l2 = interface_matrices l1' l2'.
Proof.
  move=> [E1 [E2 E3]] [E4 [E5 E6]].
  by rewrite /interface_matrices E1 E2 E3 E4 E5 E6.
Qed.

Lemma extend_modes b (l l' : LayerSolveResult K) t (l2 l2' : LayerSolveResult K) t2 :
  same_modes l l' -> same_modes l2 l2' ->
  _extend_s_matrix b l t l2 t2 = _extend_s_matrix b l' t l2' t2.
Proof.
  move=> Hl Hl2; rewrite /_extend_s_matrix (interface_matrices_modes Hl Hl2).
  by case: Hl => [-> _]; case: Hl2 => [-> _].
Qed.

Lemma append_agree (s s' : ScatteringMatrix K) (l l' : LayerSolveResult K) t :
  agree s s' -> same_modes l l' ->
  agree (append_layer s l t) (append_layer s' l' t).
Proof.
  move: s s' => [a b c d sl st el et] [a' b' c' d' sl' st' el' et'].
  move=> [Eb [Hm Et]] Hl; rewrite /blocks /= in Eb Hm Et.
  case: Eb => Ea Eb' Ec Ed; subst a' b' c' d' et'.
  rewrite /append_layer (extend_modes (a, b, c, d) et t Hm Hl).
  case: (_extend_s_matrix _ _ _ _ _) => [[[x y] z] w].
  by split; [|split].
Qed.

Lemma foldl_agree (c c' : ScatteringMatrix K) ls ts :
  agree c c' ->
  agree (foldl append_step c (zip (map strip_tangent ls) ts))
        (foldl append_step c' (zip ls ts)).
Proof.
  elim: ls ts c c' => [|l ls IH] [|t ts] c c' H //=.
  apply: IH; exact: append_agree H (same_modes_strip l).
Qed.

Lemma lax_scan_fold (c : ScatteringMatrix K) xs :
  (lax_scan (@scan_fn K) c xs).1 = foldl append_step c xs /\
  last c (lax_scan (@scan_fn K) c xs).2 = (lax_scan (@scan_fn K) c xs).1.
Proof.
  elim: xs c => [|[l t] xs IH] c //.
  rewrite lax_scan_cons /=; exact: IH.
Qed.

Lemma stack_s_matrix_scan_fold (l0 : LayerSolveResult K) rest t0 trest :
  size rest = size trest ->
  stack_s_matrix_scan (l0 :: rest) (t0 :: trest) =
  Ok (foldl append_step (identity_s_matrix l0 t0) (zip rest trest)).
Proof.
  move=> H; rewrite /stack_s_matrix_scan.
  have -> : (size (l0 :: rest) != size (t0 :: trest)) = false by rewrite /= H eqxx.
  cbn -[lax_scan identity_s_matrix zip foldl].
  have [F _] := lax_scan_fold (identity_s_matrix l0 t0) (zip rest trest).
  by move: F; case: (lax_scan _ _ _) => c ys /= ->.
Qed.

Lemma stack_s_matrix_fold (l0 l1 : LayerSolveResult K) rest t0 t1 trest :
  size rest = size trest ->
  stack_s_matrix (l0 :: l1 :: rest) (t0 :: t1 :: trest) =
  Ok (foldl append_step
        (_pair_s_matrix (strip_tangent l0) t0 (strip_tangent l1) t1)
        (zip (map strip_tangent rest) trest)).
Proof.
  move=> H; rewrite /stack_s_matrix /_stack_s_matrices.
  have -> : (size [:: l0, l1 & rest] != size [:: t0, t1 & trest]) = false
    by rewrite /= H eqxx.
  rewrite /broadcast_result map_id.
  case: rest trest H => [|l2 rest] [|t2 trest] //= H.
  set p := _pair_s_matrix _ _ _ _.
  set xs := zip _ _.
  have [F L] := lax_scan_fold (append_layer p (strip_tangent l2) t2) xs.
  by move: F L; case: (lax_scan _ _ _) => c ys /= -> ->.
Qed.

End Generic.

(** Substacks, prefixes and ends of the stack reductions. *)
Section Stacks.

Variable K : kernel.

Lemma append_layer_meta (s : ScatteringMatrix K) l t :
  start_layer_solve_result (append_layer s l t) = start_layer_solve_result s /\
  start_layer_thickness (append_layer s l t) = start_layer_thickness s /\
  end_layer_solve_result (append_layer s l t) = l /\
  end_layer_thickness (append_layer s l t) = t.
Proof. rewrite /append_layer; by case: (_extend_s_matrix _ _ _ _ _) => [[[a b] c] d]. Qed.

Lemma lax_scan_outputs (c : ScatteringMatrix K) xs d dx k :
  size (lax_scan (@scan_fn K) c xs).2 = size xs /\
  ((k < size xs)%N ->
   start_layer_solve_result (nth d (lax_scan (@scan_fn K) c xs).2 k)
     = start_layer_solve_result c /\
   start_layer_thickness (nth d (lax_scan (@scan_fn K) c xs).2 k)
     = start_layer_thickness c /\
   end_layer_solve_result (nth d (lax_scan (@scan_fn K) c xs).2 k) = (nth dx xs k).1 /\
   end_layer_thickness (nth d (lax_scan (@scan_fn K) c xs).2 k) = (nth dx xs k).2).
Proof.
  elim: xs c k => [|[l t] xs IH] c k; first by [].
  rewrite lax_scan_cons; cbn -[append_layer lax_scan].
  have [Hs Hk] := IH (append_layer c l t) k.-1.
  split; first by rewrite Hs.
  case: k Hk => [|k] Hk Hlt; cbn -[append_layer lax_scan].
  - exact: append_layer_meta.
  - have [-> [-> [-> ->]]] := Hk Hlt.
    by have [-> [-> _]] := append_layer_meta c l t.
Qed.

Lemma lax_scan_take (c : ScatteringMatrix K) xs n :
  (lax_scan (@scan_fn K) c (take n xs)).2 = take n (lax_scan (@scan_fn K) c xs).2.
Proof.
  elim: xs c n => [|x xs IH] c n; first by case: n.
  case: n => [|n]; first by rewrite lax_scan_cons.
  have -> : take n.+1 (x :: xs) = x :: take n xs by [].
  by rewrite !lax_scan_cons IH.
Qed.


Lemma _stack_s_matrices_eq (ls : seq (LayerSolveResult K)) (ts : seq (thick K)) :
  size ls = size ts ->
  _stack_s_matrices ls ts =
  match map strip_tangent ls, ts with
  | [:: l0], [:: t0] => Ok [:: identity_s_matrix l0 t0]
  | l0 :: l1 :: rest, t0 :: t1 :: trest =>
      Ok (identity_s_matrix l0 t0 :: _pair_s_matrix l0 t0 l1 t1 ::
          (lax_scan (@scan_fn K) (_pair_s_matrix l0 t0 l1 t1) (zip rest trest)).2)
  | _, _ => Err IndexError
  end.
Proof.
  move=> H; rewrite /_stack_s_matrices H eqxx /broadcast_result map_id.
  case: ls ts H => [|l0 [|l1 [|l2 rest]]] [|t0 [|t1 [|t2 trest]]] // H.
  cbn -[lax_scan identity_s_matrix _pair_s_matrix zip].
  by case: (lax_scan (@scan_fn K) _ _).
Qed.

Lemma pair_meta (l0 l1 : LayerSolveResult K) t0 t1 :
  start_layer_solve_result (_pair_s_matrix l0 t0 l1 t1) = l0 /\
  start_layer_thickness (_pair_s_matrix l0 t0 l1 t1) = t0 /\
  end_layer_solve_result (_pair_s_matrix l0 t0 l1 t1) = l1 /\
  end_layer_thickness (_pair_s_matrix l0 t0 l1 t1) = t1.
Proof. rewrite /_pair_s_matrix; by case: (interface_matrices _ _) => [[[a b] c] d]. Qed.

Lemma _stack_s_matrices_meta (ls : seq (LayerSolveResult K)) (ts : seq (thick K)) :
  size ls = size ts -> (0 < size ls)%N ->
  exists ss, _stack_s_matrices ls ts = Ok ss /\ size ss = size ls /\
  forall d dl dt k, (k < size ls)%N ->
    start_layer_solve_result (nth d ss k) = strip_tangent (nth dl ls 0) /\
    start_layer_thickness (nth d ss k) = nth dt ts 0 /\
    end_layer_solve_result (nth d ss k) = strip_tangent (nth dl ls k) /\
    end_layer_thickness (nth d ss k) = nth dt ts k.
Proof.
  move=> H Hn; rewrite _stack_s_matrices_eq //.
  case: ls ts H Hn => [|l0 [|l1 rest]] [|t0 [|t1 trest]] // H _.
  - by eexists; split; first reflexivity; split=> // d dl dt [|k].
  - have Hs : size rest = size trest by case: H.
    eexists; split; first reflexivity.
    have [Hsz _] := lax_scan_outputs (_pair_s_matrix (strip_tangent l0) t0 (strip_tangent l1) t1)
      (zip (map strip_tangent rest) trest) (identity_s_matrix l0 t0) (l0, t0) 0.
    split; first by rewrite /= Hsz size_zip size_map Hs minnn.
    move=> d dl dt [|[|k]] Hk; first by [].
    + exact: pair_meta.
    + have Hk' : (k < size rest)%N by [].
      have [_ Ho] := lax_scan_outputs (_pair_s_matrix (strip_tangent l0) t0 (strip_tangent l1) t1)
        (zip (map strip_tangent rest) trest) d (strip_tangent dl, dt) k.
      have Hk2 : (k < size (zip (map strip_tangent rest) trest))%N
        by rewrite size_zip size_map Hs minnn -Hs.
      have [-> [-> [-> ->]]] := Ho Hk2.
      have [-> [-> _]] := pair_meta (strip_tangent l0) (strip_tangent l1) t0 t1.
      rewrite nth_zip ?size_map //= (nth_map dl) //.
Qed.

(** X1: for a nonempty stack with as many thicknesses as layers,
    [_stack_s_matrices] returns one matrix per layer; matrix [k] starts at
    layer [0] and ends at layer [k] (tangent fields dropped), with the
    thicknesses of those two layers. *)
Theorem stack_s_matrices_substacks (ls : seq (LayerSolveResult K)) (ts : seq (thick K)) :
  size ls = size ts -> (0 < size ls)%N ->
  exists ss, _stack_s_matrices ls ts = Ok ss /\ size ss = size ls /\
  forall d dl dt k, (k < size ls)%N ->
    start_layer_solve_result (nth d ss k) = strip_tangent (nth dl ls 0) /\
    start_layer_thickness (nth d ss k) = nth dt ts 0 /\
    end_layer_solve_result (nth d ss k) = strip_tangent (nth dl ls k) /\
    end_layer_thickness (nth d ss k) = nth dt ts k.
Proof. exact: _stack_s_matrices_meta. Qed.

Lemma take_zip_seq {A B} (a : seq A) (b : seq B) n :
  take n (zip a b) = zip (take n a) (take n b).
Proof. by elim: a b n => [|x a IH] [|y b] [|n] //=; rewrite IH. Qed.

(** X2: for equal lengths and [0 < k], the first [k] matrices that
    [_stack_s_matrices] returns for a stack are the matrices it returns for the
    first [k] layers and thicknesses (errors included). *)
Theorem stack_s_matrices_prefix (ls : seq (LayerSolveResult K)) (ts : seq (thick K)) k :
  size ls = size ts -> (0 < k)%N ->
  map_result (take k) (_stack_s_matrices ls ts) =
  _stack_s_matrices (take k ls) (take k ts).
Proof.
  move=> H Hk.
  have H' : size (take k ls) = size (take k ts) by rewrite !size_take H.
  rewrite !_stack_s_matrices_eq //; clear H'.
  case: k Hk => [|[|k]] // _.
  - by case: ls ts H => [|l0 [|l1 rest]] [|t0 [|t1 trest]].
  - case: ls ts H => [|l0 [|l1 rest]] [|t0 [|t1 trest]] // _.
    by rewrite /map_result /= -lax_scan_take take_zip_seq map_take.
Qed.

(** X3: for a stack of at least two layers, [stack_s_matrix] on the stack
    with one more layer [l] of thickness [t] is [append_layer] of the stack's
    matrix with [l] (its tangent vector field dropped) at [t]. *)
Theorem stack_s_matrix_append (ls : seq (LayerSolveResult K)) (ts : seq (thick K)) l t :
  size ls = size ts -> (2 <= size ls)%N ->
  stack_s_matrix (rcons ls l) (rcons ts t) =
  map_result (fun s => append_layer s (strip_tangent l) t) (stack_s_matrix ls ts).
Proof.
  case: ls ts => [|l0 [|l1 rest]] [|t0 [|t1 trest]] // [H] _.
  have Hs : size rest = size trest by case: H.
  rewrite !rcons_cons !stack_s_matrix_fold ?size_rcons ?Hs // /map_result /=.
  by rewrite map_rcons zip_rcons ?size_map // foldl_rcons.
Qed.

Lemma swap_swap (s : ScatteringMatrix K) : swap_s_matrix (swap_s_matrix s) = s.
Proof. by case: s. Qed.

(** X4: for a nonempty stack of equal lengths, [stack_s_matrices_interior]
    returns one pair per layer; the pair of layer [k] holds the matrix of
    layers [0..k] and the matrix of layers [k..n-1], each with start and end
    layers (tangent field dropped) and thicknesses read from the inputs. *)
Theorem stack_s_matrices_interior_substacks (ls : seq (LayerSolveResult K))
    (ts : seq (thick K)) :
  size ls = size ts -> (0 < size ls)%N ->
  exists ps, stack_s_matrices_interior ls ts = Ok ps /\ size ps = size ls /\
  forall d dl dt k, (k < size ls)%N ->
    let n := (size ls).-1 in
    start_layer_solve_result (nth d ps k).1 = strip_tangent (nth dl ls 0) /\
    start_layer_thickness (nth d ps k).1 = nth dt ts 0 /\
    end_layer_solve_result (nth d ps k).1 = strip_tangent (nth dl ls k) /\
    end_layer_thickness (nth d ps k).1 = nth dt ts k /\
    start_layer_solve_result (nth d ps k).2 = strip_tangent (nth dl ls k) /\
    start_layer_thickness (nth d ps k).2 = nth dt ts k /\
    end_layer_solve_result (nth d ps k).2 = strip_tangent (nth dl ls n) /\
    end_layer_thickness (nth d ps k).2 = nth dt ts n.
Proof.
  move=> H Hn.
  have [b [Hb [Hbs Hbm]]] := _stack_s_matrices_meta H Hn.
  have Hr : size (rev ls) = size (rev ts) by rewrite !size_rev.
  have Hrn : (0 < size (rev ls))%N by rewrite size_rev.
  have [r [Hr' [Hrs Hrm]]] := _stack_s_matrices_meta Hr Hrn.
  rewrite /stack_s_matrices_interior Hb /= Hr' /=.
  exists (zip b (map swap_s_matrix (rev r))); split; first by [].
  rewrite size_zip size_map size_rev Hbs Hrs size_rev minnn; split; first by [].
  move=> [d1 d2] dl dt k Hk; cbv zeta.
  have Hz : size b = size (map swap_s_matrix (rev r)) by rewrite size_map size_rev Hbs Hrs size_rev.
  rewrite (nth_zip _ _ _ Hz) /=.
  have [-> [-> [-> ->]]] := Hbm d1 dl dt k Hk.
  rewrite -(swap_swap d2) (nth_map (swap_s_matrix d2)) ?size_rev ?Hrs ?size_rev //.
  rewrite nth_rev ?Hrs ?size_rev //.
  have Hj : (size ls - k.+1 < size (rev ls))%N.
    by rewrite size_rev; case: (size ls) Hk => // m _; rewrite subSS; apply: leq_ltn_trans (leq_subr _ _) _.
  have [E1 [E2 [E3 E4]]] := Hrm (swap_s_matrix d2) dl dt (size ls - k.+1) Hj.
  rewrite /swap_s_matrix /= E1 E2 E3 E4 !nth_rev ?size_rev -?H //; last first.
  - by rewrite subnSK // subKn 1?ltnW // subn1; do !split.
  - by move: Hj; rewrite size_rev.
  - by move: Hj; rewrite size_rev.
Qed.

Lemma foldl_append_meta (c : ScatteringMatrix K) xs :
  start_layer_solve_result (foldl append_step c xs) = start_layer_solve_result c /\
  start_layer_thickness (foldl append_step c xs) = start_layer_thickness c /\
  (end_layer_solve_result (foldl append_step c xs),
   end_layer_thickness (foldl append_step c xs)) =
  last (end_layer_solve_result c, end_layer_thickness c) xs.
Proof.
  elim: xs c => [|[l t] xs IH] c //=.
  have [E1 [E2 [E3 E4]]] := append_layer_meta c l t.
  have [F1 [F2 F3]] := IH (append_layer c l t).
  by rewrite /append_step /= F1 F2 F3 E1 E2 E3 E4.
Qed.

(** X6: on a nonempty stack of equal lengths, [stack_s_matrix_scan]
    succeeds with a matrix whose start and end layers are the first and last
    supplied solve results, kept as given (tangent field included), with the
    first and last thicknesses. *)
Theorem stack_s_matrix_scan_ends (ls : seq (LayerSolveResult K)) (ts : seq (thick K)) :
  size ls = size ts -> (0 < size ls)%N ->
  exists s, stack_s_matrix_scan ls ts = Ok s /\
  forall dl dt,
    start_layer_solve_result s = nth dl ls 0 /\
    start_layer_thickness s = nth dt ts 0 /\
    end_layer_solve_result s = nth dl ls (size ls).-1 /\
    end_layer_thickness s = nth dt ts (size ts).-1.
Proof.
  case: ls ts => [|l0 rest] [|t0 trest] // [H] _.
  rewrite stack_s_matrix_scan_fold //; eexists; split; first by [].
  move=> dl dt.
  have [F1 [F2 F3]] := foldl_append_meta (identity_s_matrix l0 t0) (zip rest trest).
  rewrite F1 F2 /=; do 2 split=> //.
  rewrite !nth_last /=.
  have E : last (l0, t0) (zip rest trest) = (last l0 rest, last t0 trest).
    by clear F1 F2 F3; elim: rest trest l0 t0 H => [|a rest IH] [|b trest] //= l0 t0 [/IH ->].
  by move: F3; rewrite /= E; case=> -> ->.
Qed.

(** X7: [set_start_layer_thickness s t] is [set_end_layer_thickness]
    applied to the block-swapped matrix, swapped back. *)
Theorem set_start_is_swapped_set_end (s : ScatteringMatrix K) t :
  set_start_layer_thickness s t =
  swap_s_matrix (set_end_layer_thickness (swap_s_matrix s) t).
Proof. by []. Qed.

Lemma _stack_s_matrices_head (ls : seq (LayerSolveResult K)) (ts : seq (thick K)) dl dt :
  size ls = size ts -> (0 < size ls)%N ->
  exists tl, _stack_s_matrices ls ts =
    Ok (identity_s_matrix (strip_tangent (nth dl ls 0)) (nth dt ts 0) :: tl).
Proof.
  move=> H Hn; rewrite _stack_s_matrices_eq //.
  case: ls ts H Hn => [|l0 [|l1 rest]] [|t0 [|t1 trest]] //= _ _; by eexists.
Qed.

Lemma swap_identity (l : LayerSolveResult K) t :
  swap_s_matrix (identity_s_matrix l t) = identity_s_matrix l t.
Proof. by []. Qed.

(** X5: for a nonempty stack of equal lengths, the first matrix of the
    first pair of [stack_s_matrices_interior] is the identity scattering
    matrix of the first layer, and the second matrix of the last pair is the
    identity scattering matrix of the last layer (tangent fields dropped). *)
Theorem stack_s_matrices_interior_identity_ends (ls : seq (LayerSolveResult K))
    (ts : seq (thick K)) :
  size ls = size ts -> (0 < size ls)%N ->
  exists ps, stack_s_matrices_interior ls ts = Ok ps /\
  forall d dl dt,
    let n := (size ls).-1 in
    (nth d ps 0).1 = identity_s_matrix (strip_tangent (nth dl ls 0)) (nth dt ts 0) /\
    (nth d ps n).2 = identity_s_matrix (strip_tangent (nth dl ls n)) (nth dt ts n).
Proof.
  move=> H Hn.
  have [b [Hb [Hbs _]]] := _stack_s_matrices_meta H Hn.
  have Hr : size (rev ls) = size (rev ts) by rewrite !size_rev.
  have Hrn : (0 < size (rev ls))%N by rewrite size_rev.
  have [r [Hr' [Hrs _]]] := _stack_s_matrices_meta Hr Hrn.
  rewrite /stack_s_matrices_interior Hb /= Hr' /=.
  exists (zip b (map swap_s_matrix (rev r))); split; first by [].
  move=> [d1 d2] dl dt; cbv zeta.
  have Hz : size b = size (map swap_s_matrix (rev r)) by rewrite size_map size_rev Hbs Hrs size_rev.
  rewrite !(nth_zip _ _ _ Hz) /=.
  have [tl Etl] := _stack_s_matrices_head dl dt H Hn.
  have [tr Etr] := _stack_s_matrices_head dl dt Hr Hrn.
  move: Hb Hr' Hrs; rewrite Etl Etr => -[<-] [<-] Hrs /=; split; first by [].
  have Htr : size tr = (size ls).-1 by move: Hrs; rewrite /= size_rev => <-.
  rewrite rev_cons map_rcons nth_rcons size_map size_rev Htr ltnn eqxx swap_identity.
  by rewrite !nth_rev -?H // subn1.
Qed.

End Stacks.

(** Identities of a (possibly noncommutative) ring behind the associativity
    of the star product. *)
Section Alg.

Variable M : unitRingType.
Local Open Scope ring_scope.

Lemma ac_move (X P Q R S : M) :
  X + S = P + (Q + R) -> X - Q = P + (R - S).
Proof.
  move=> H; have -> : X = P + (Q + R) - S by rewrite -H addrK.
  rewrite -!addrA; congr (_ + _).
  by rewrite addrCA; congr (_ + _); rewrite addrCA subrr addr0.
Qed.

Lemma ac_back (X P Q R S : M) :
  X - Q = P + (R - S) -> X + S = P + (Q + R).
Proof.
  move=> H; have -> : X = P + (R - S) + Q by rewrite -H addrNK.
  rewrite -!addrA; congr (_ + _).
  by rewrite [- S + _]addrCA addNr addr0 addrC.
Qed.

Lemma ac_4 (A B C D : M) : A + (B + C) + D = B + A + (C + D).
Proof. by rewrite addrCA !addrA. Qed.


Lemma ac_cancel (X Y Z : M) : X + (Y + Z) - Y = X + Z.
Proof. by rewrite addrCA addrC addKr. Qed.

Lemma ac_cancel2 (A B C : M) : A + B + C - B = A + C.
Proof. by rewrite addrAC addrK. Qed.

Lemma unit_solve (U v p : M) : U \is a GRing.unit -> U * p = v -> p = U^-1 * v.
Proof. by move=> HU <-; rewrite mulKr. Qed.

Lemma jacobson (a b : M) : 1 - a * b \is a GRing.unit -> 1 - b * a \is a GRing.unit.
Proof.
  move=> H; apply/unitrP; exists (1 + b * ((1 - a * b)^-1 * a)); split.
  - have E : a * (1 - b * a) = (1 - a * b) * a
      by rewrite mulrBr mulrBl mulr1 mul1r mulrA.
    rewrite mulrDl mul1r -!mulrA E [_^-1 * _]mulrA mulVr // mul1r.
    by rewrite subrK.
  - have E : (1 - b * a) * b = b * (1 - a * b)
      by rewrite mulrBl mulrBr mul1r mulr1 mulrA.
    rewrite mulrDr mulr1 mulrA E -mulrA [(1 - a * b) * _]mulrA mulrV // mul1r.
    by rewrite subrK.
Qed.

Lemma elim_p (a11 a12 b21 b22 x z p m : M) :
  p = a11 * x + a12 * m -> m = b21 * p + b22 * z ->
  (1 - a12 * b21) * p = a11 * x + a12 * (b22 * z).
Proof.
  move=> Hp Hm; rewrite mulrBl mul1r {1}Hp Hm mulrDr !mulrA.
  exact: ac_cancel.
Qed.

Lemma elim_m (a11 a12 b21 b22 x z p m : M) :
  p = a11 * x + a12 * m -> m = b21 * p + b22 * z ->
  (1 - b21 * a12) * m = b21 * (a11 * x) + b22 * z.
Proof.
  move=> Hp Hm; rewrite mulrBl mul1r {1}Hm Hp mulrDr !mulrA.
  exact: ac_cancel2.
Qed.


Lemma red_sound (a11 a12 a21 a22 b11 b12 b21 b22 x z u w p m : M) :
  1 - a12 * b21 \is a GRing.unit ->
  p = a11 * x + a12 * m -> m = b21 * p + b22 * z ->
  u = b11 * p + b12 * z -> w = a21 * x + a22 * m ->
  u = b11 * ((1 - a12 * b21)^-1 * a11) * x
      + (b12 + b11 * ((1 - a12 * b21)^-1 * (a12 * b22))) * z /\
  w = (a21 + a22 * ((1 - b21 * a12)^-1 * (b21 * a11))) * x
      + a22 * ((1 - b21 * a12)^-1 * b22) * z.
Proof.
  move=> HU Hp Hm Hu Hw; have HV := jacobson HU.
  have Ep := unit_solve HU (elim_p Hp Hm).
  have Em := unit_solve HV (elim_m Hp Hm).
  split.
  - rewrite Hu Ep !mulrDr !mulrDl !mulrA.
    by rewrite [RHS]addrA addrAC.
  - rewrite Hw Em !mulrDr !mulrDl !mulrA.
    by rewrite addrA.
Qed.

Lemma red_complete (a11 a12 a21 a22 b11 b12 b21 b22 x z : M) :
  1 - a12 * b21 \is a GRing.unit ->
  exists p m, p = a11 * x + a12 * m /\ m = b21 * p + b22 * z /\
  b11 * ((1 - a12 * b21)^-1 * a11) * x
      + (b12 + b11 * ((1 - a12 * b21)^-1 * (a12 * b22))) * z = b11 * p + b12 * z /\
  (a21 + a22 * ((1 - b21 * a12)^-1 * (b21 * a11))) * x
      + a22 * ((1 - b21 * a12)^-1 * b22) * z = a21 * x + a22 * m.
Proof.
  move=> HU.
  pose p := (1 - a12 * b21)^-1 * (a11 * x + a12 * (b22 * z)).
  have E : (1 - a12 * b21) * p = a11 * x + a12 * (b22 * z) by rewrite /p mulVKr.
  rewrite mulrBl mul1r in E.
  have Hp : p = a11 * x + a12 * (b21 * p + b22 * z).
    by rewrite mulrDr mulrA addrCA addrC -E subrK.
  exists p, (b21 * p + b22 * z).
  have [Hu Hw] := red_sound (a21:=a21) (a22:=a22) (b11:=b11) (b12:=b12) HU Hp erefl erefl erefl.
  by rewrite -Hu -Hw.
Qed.

Lemma ext_u (s11 s12 i11 i12 i21 i22 fd fdn x z u p m : M) :
  i11 - fd * s12 * i21 \is a GRing.unit ->
  p = s11 * x + s12 * m ->
  i11 * u + i12 * (fdn * z) = fd * p -> m = i21 * u + i22 * (fdn * z) ->
  u = (i11 - fd * s12 * i21)^-1 * (fd * s11) * x
      + (i11 - fd * s12 * i21)^-1 * ((fd * s12 * i22 - i12) * fdn) * z.
Proof.
  move=> HT Hp H1 Hm.
  have H1' : i11 * u + i12 * fdn * z
      = fd * s11 * x + (fd * s12 * i21 * u + fd * s12 * i22 * fdn * z).
    by rewrite -mulrA H1 Hp Hm !mulrDr !mulrA.
  have ET : (i11 - fd * s12 * i21) * u
      = fd * s11 * x + (fd * s12 * i22 - i12) * fdn * z.
    by rewrite mulrBl !mulrBl (ac_move H1').
  by rewrite (unit_solve HT ET) mulrDr !mulrA.
Qed.

Lemma ext_w (s21 s22 i21 i22 fdn e11 e12 x z u w m : M) :
  w = s21 * x + s22 * m -> m = i21 * u + i22 * (fdn * z) ->
  u = e11 * x + e12 * z ->
  w = (s22 * i21 * e11 + s21) * x + (s22 * i21 * e12 + s22 * i22 * fdn) * z.
Proof.
  move=> Hw Hm Hu; rewrite Hw Hm Hu !mulrDr !mulrDl !mulrA.
  by rewrite addrA ac_4.
Qed.

Lemma ext_complete (s11 s12 i11 i12 i21 i22 fd fdn x z : M) :
  i11 - fd * s12 * i21 \is a GRing.unit ->
  let u := (i11 - fd * s12 * i21)^-1 * (fd * s11) * x
      + (i11 - fd * s12 * i21)^-1 * ((fd * s12 * i22 - i12) * fdn) * z in
  let m := i21 * u + i22 * (fdn * z) in
  i11 * u + i12 * (fdn * z) = fd * (s11 * x + s12 * m).
Proof.
  move=> HT u m.
  have ET : (i11 - fd * s12 * i21) * u
      = fd * s11 * x + (fd * s12 * i22 - i12) * fdn * z.
    by rewrite /u mulrDr -!mulrA !mulVKr // !mulrA.
  rewrite mulrBl !mulrBl in ET.
  have := ac_back ET.
  by rewrite /m !mulrDr !mulrA.
Qed.

End Alg.

Section Ring.

Variables (M : unitRingType) (T X : Type) (half : M) (recip : M -> M)
  (phase : M -> T -> M) (tminus : T -> T -> T) (solver : M -> M -> M).

#[local] Abbreviation RK := (@ring_kernel M T X half recip phase tminus solver).

Lemma pair_agree (l0 l1 : LayerSolveResult RK) (t0 t1 : T) :
  agree (_pair_s_matrix l0 t0 l1 t1) (append_layer (identity_s_matrix l0 t0) l1 t1).
Proof.
  rewrite /_pair_s_matrix /append_layer /_extend_s_matrix.
  case: (interface_matrices l0 l1) => [[[i11 i12] i21] i22] /=.
  rewrite /agree /blocks /=.
  rewrite !(mulr0, mul0r, mul1r, mulr1, subr0, sub0r, addr0).
  by split; [|split].
Qed.

Lemma identity_strip_agree (l : LayerSolveResult RK) (t : T) :
  agree (identity_s_matrix (strip_tangent l) t) (identity_s_matrix l t).
Proof. by []. Qed.

(** C1: for one layer [l] of thickness [t], [stack_s_matrix([l], [t])]
    succeeds with [s11 = s22 = I] and [s12 = s21 = 0]; its start and end
    layers are both that layer (with the tangent vector field dropped, and the
    same modes) at thickness [t]. *)
Theorem single_layer_identity (l : LayerSolveResult RK) (t : T) :
  exists s, stack_s_matrix [:: l] [:: t] = Ok s /\
    s11 s = 1%R :> M /\ s12 s = 0%R :> M /\ s21 s = 0%R :> M /\
    s22 s = 1%R :> M /\
    start_layer_solve_result s = strip_tangent l /\
    end_layer_solve_result s = strip_tangent l /\
    same_modes (start_layer_solve_result s) l /\
    same_modes (end_layer_solve_result s) l /\
    start_layer_thickness s = t /\ end_layer_thickness s = t.
Proof.
  by exists (identity_s_matrix (strip_tangent l) t).
Qed.

Lemma foldl_blocks (c c' : ScatteringMatrix RK) ls ts :
  agree c c' ->
  blocks (foldl append_step c (zip (map strip_tangent ls) ts)) =
  blocks (foldl append_step c' (zip ls ts)).
Proof. by move=> H; case: (foldl_agree ls ts H). Qed.

(** C3: on the same layers (given as the slices of the leading batch axis),
    [stack_s_matrix_scan] and [stack_s_matrix] agree on the four blocks
    [s11, s12, s21, s22] of the final scattering matrix (including on the
    [IndexError] raised for an empty stack). *)
Theorem scan_matches_stack (ls : seq (LayerSolveResult RK)) (ts : seq T) :
  size ls = size ts ->
  map_result blocks (stack_s_matrix_scan ls ts) =
  map_result blocks (stack_s_matrix ls ts).
Proof.
  case: ls ts => [|l0 [|l1 rest]] [|t0 [|t1 trest]] //= H.
  have Hs : size rest = size trest by case: H.
  rewrite stack_s_matrix_scan_fold; try exact: (f_equal S Hs).
  rewrite stack_s_matrix_fold // /map_result /=.
  congr Ok; symmetry; apply: foldl_blocks.
  apply: agree_trans (pair_agree _ _ _ _) _.
  exact: append_agree (identity_strip_agree _ _) (same_modes_strip _).
Qed.

Lemma pair_append_identity (l0 l1 : LayerSolveResult RK) (t0 t1 : T) :
  _pair_s_matrix l0 t0 l1 t1 = append_layer (identity_s_matrix l0 t0) l1 t1.
Proof.
  rewrite /_pair_s_matrix /append_layer /_extend_s_matrix.
  case: (interface_matrices l0 l1) => [[[i11 i12] i21] i22] /=.
  congr Build_ScatteringMatrix;
  by rewrite !(mulr0, mul0r, mul1r, mulr1, subr0, sub0r, addr0).
Qed.

(** X8: [_pair_s_matrix l0 t0 l1 t1] is [append_layer] of the identity
    scattering matrix of [l0] at [t0] with [l1] at [t1], as its comment says
    ("identical to [_extend_s_matrix] with [s11], [s22] the identity and
    [s12], [s21] zero"). *)
Theorem pair_s_matrix_is_append (l0 l1 : LayerSolveResult RK) (t0 t1 : T) :
  _pair_s_matrix l0 t0 l1 t1 = append_layer (identity_s_matrix l0 t0) l1 t1.
Proof. exact: pair_append_identity. Qed.

(** X9: for as many thicknesses as layers, [stack_s_matrix] returns what
    [stack_s_matrix_scan] returns on the same layers with their tangent
    vector fields dropped: the same matrix, or the same error. *)
Theorem stack_s_matrix_is_scan_of_stripped (ls : seq (LayerSolveResult RK)) (ts : seq T) :
  size ls = size ts ->
  stack_s_matrix ls ts = stack_s_matrix_scan (map strip_tangent ls) ts.
Proof.
  case: ls ts => [|l0 [|l1 rest]] [|t0 [|t1 trest]] //= H.
  have Hs : size rest = size trest by case: H.
  have Hs2 : size (strip_tangent l1 :: map strip_tangent rest) = size (t1 :: trest) by rewrite /= size_map Hs.
  rewrite stack_s_matrix_fold // (stack_s_matrix_scan_fold (strip_tangent l0) t0 Hs2).
  by rewrite pair_append_identity.
Qed.

(** X10: when [utils.solve(eye, b) = b], the star product of [A] with the
    identity scattering matrix of a layer [l] at thickness [t] is
    [append_layer A l t]. *)
Theorem star_identity_right (A : ScatteringMatrix RK) (l : LayerSolveResult RK) (t : T) :
  (forall B : M, solver 1 B = B) ->
  redheffer_star_product A (identity_s_matrix l t) = append_layer A l t.
Proof.
  move=> H1; rewrite /redheffer_star_product.
  have -> : start_layer_solve_result (identity_s_matrix l t) = l by [].
  have -> : start_layer_thickness (identity_s_matrix l t) = t by [].
  case: (append_layer A l t) (append_layer_meta A l t)
    => a11 a12 a21 a22 s0 st0 e0 et0 /= [-> [-> [-> ->]]].
  congr Build_ScatteringMatrix;
  by rewrite !(mulr0, mul0r, mul1r, mulr1, subr0, sub0r, addr0, add0r) ?H1 ?(mulr0, mulr1, addr0).
Qed.

Section Thickness.

Hypothesis Hphase : forall (q : M) (t0 t : T),
  (phase q t0 * phase q (tminus t t0))%R = phase q t.
Hypothesis Hsolve : forall A B D : M, (solver A B * D)%R = solver A (B * D)%R.

Lemma Hphase_r (Z q : M) (t0 t : T) :
  (Z * phase q t0 * phase q (tminus t t0))%R = (Z * phase q t)%R.
Proof. by rewrite -mulrA Hphase. Qed.

Lemma Hsolve_l (Z A B D : M) :
  (Z * solver A B * D)%R = (Z * solver A (B * D))%R.
Proof. by rewrite -mulrA Hsolve. Qed.

Lemma Hsum (a b A B q : M) (t1 t2 : T) :
  ((a * solver A (B * phase q t1) + b * phase q t1) * phase q (tminus t2 t1))%R =
  (a * solver A (B * phase q t2) + b * phase q t2)%R.
Proof. by rewrite mulrDl Hsolve_l !Hphase_r. Qed.

Lemma set_end_append (s : ScatteringMatrix RK) (l : LayerSolveResult RK)
    (t1 t2 : T) :
  set_end_layer_thickness (append_layer s l t1) t2 = append_layer s l t2.
Proof.
  rewrite /set_end_layer_thickness /append_layer /_extend_s_matrix.
  case: (interface_matrices _ _) => [[[i11 i12] i21] i22] /=.
  by congr Build_ScatteringMatrix; rewrite ?Hsum ?Hsolve ?Hphase_r.
Qed.

Lemma set_end_pair (l0 l1 : LayerSolveResult RK) (t0 t1 t2 : T) :
  set_end_layer_thickness (_pair_s_matrix l0 t0 l1 t1) t2 =
  _pair_s_matrix l0 t0 l1 t2.
Proof.
  rewrite /set_end_layer_thickness /_pair_s_matrix.
  case: (interface_matrices _ _) => [[[i11 i12] i21] i22] /=.
  by congr Build_ScatteringMatrix; rewrite ?Hsum ?Hsolve ?Hphase_r.
Qed.

Lemma set_end_foldl (c : ScatteringMatrix RK) ls (xs : seq T) (t1 t2 : T) :
  size ls = (size xs).+1 ->
  set_end_layer_thickness (foldl append_step c (zip ls (rcons xs t1))) t2 =
  foldl append_step c (zip ls (rcons xs t2)).
Proof.
  elim: ls xs c => [|l ls IH] [|x xs] c //= H.
  - by case: ls H IH => [|? ?] //= _ _; apply: set_end_append.
  - by apply: IH; case: H.
Qed.

(** C4 (amended): for a stack of at least two layers, rescaling the
    scattering matrix with [set_end_layer_thickness] to the end thickness
    [t2] gives the matrix rebuilt by [stack_s_matrix] with the last thickness
    set to [t2].  This uses the two laws of the numeric kernel behind the
    rescaling: [exp(1j q t0) exp(1j q (t - t0)) = exp(1j q t)], and
    [solve(a, b) d = solve(a, b d)]. *)
Theorem set_end_thickness_rebuild (ls : seq (LayerSolveResult RK))
    (ts0 : seq T) (t1 t2 : T) :
  size ls = (size ts0).+1 -> 2 <= size ls ->
  map_result (fun s : ScatteringMatrix RK => set_end_layer_thickness s t2)
    (stack_s_matrix ls (rcons ts0 t1)) =
  stack_s_matrix ls (rcons ts0 t2).
Proof.
  case: ls => [|l0 [|l1 rest]] //= H _.
  case: ts0 H => [|t0 ts0] //= [H].
  case: ts0 H => [|x xs] /= H.
  - case: rest H => [|? ?] //= _.
    by rewrite !stack_s_matrix_fold //= set_end_pair.
  - rewrite !stack_s_matrix_fold ?size_rcons //=.
    by rewrite set_end_foldl // size_map.
Qed.

Lemma set_start_append (s : ScatteringMatrix RK) (l : LayerSolveResult RK) (t t' : T) :
  set_start_layer_thickness (append_layer s l t) t' =
  append_layer (set_start_layer_thickness s t') l t.
Proof.
  rewrite /set_start_layer_thickness /append_layer /_extend_s_matrix.
  case: (interface_matrices _ _) => [[[i11 i12] i21] i22] /=.
  congr Build_ScatteringMatrix; rewrite ?mulrDl -?mulrA ?Hsolve -?mulrA //.
Qed.

Lemma set_start_pair (l0 l1 : LayerSolveResult RK) (t0 t0' t1 : T) :
  set_start_layer_thickness (_pair_s_matrix l0 t0 l1 t1) t0' =
  _pair_s_matrix l0 t0' l1 t1.
Proof.
  rewrite /set_start_layer_thickness /_pair_s_matrix.
  case: (interface_matrices _ _) => [[[i11 i12] i21] i22] /=.
  congr Build_ScatteringMatrix; by rewrite -?mulrA Hsolve Hphase.
Qed.

Lemma set_start_foldl (c : ScatteringMatrix RK) xs (t' : T) :
  set_start_layer_thickness (foldl append_step c xs) t' =
  foldl append_step (set_start_layer_thickness c t') xs.
Proof.
  elim: xs c => [|[l t] xs IH] c //=.
  by rewrite IH /append_step /= set_start_append.
Qed.

(** X11: for a stack of at least two layers, rescaling its matrix with
    [set_start_layer_thickness] to a first thickness [t0'] gives the matrix
    rebuilt by [stack_s_matrix] with the first thickness set to [t0'] (under
    the same two laws of the numeric kernel as for C4). *)
Theorem set_start_thickness_rebuild (ls : seq (LayerSolveResult RK))
    (ts : seq T) (t0 t0' : T) :
  size ls = (size ts).+1 -> (2 <= size ls)%N ->
  map_result (fun s : ScatteringMatrix RK => set_start_layer_thickness s t0')
    (stack_s_matrix ls (t0 :: ts)) =
  stack_s_matrix ls (t0' :: ts).
Proof.
  case: ls ts => [|l0 [|l1 rest]] [|t1 trest] //= [H] _.
  rewrite !stack_s_matrix_fold // /map_result /=.
  by rewrite set_start_foldl set_start_pair.
Qed.

End Thickness.

Section Star.

Local Open Scope ring_scope.

(** [utils.solve] on an invertible matrix. *)
Hypothesis Hsolve_inv : forall A B : M, solver A B = A^-1 * B.

(** [srel S x z u w]: the amplitudes [u] (forward, leaving the end) and [w]
    (backward, leaving the start) produced by [S] from the incoming forward
    amplitude [x] at the start and backward amplitude [z] at the end. *)
Local Notation srel S x z u w :=
  (u = s11 S * x + s12 S * z /\ w = s21 S * x + s22 S * z).

Lemma append_sound (S : ScatteringMatrix RK) l t (x z u w p m : M) :
  (append_term3 S l : M) \is a GRing.unit ->
  srel S x m p w ->
  (forall i11 i12 i21 i22,
     interface_matrices (end_layer_solve_result S) l = (i11, i12, i21, i22) ->
     i11 * u + i12 * (phase (eigenvalues l) t * z)
       = phase (eigenvalues (end_layer_solve_result S)) (end_layer_thickness S) * p /\
     m = i21 * u + i22 * (phase (eigenvalues l) t * z)) ->
  srel (append_layer S l t) x z u w.
Proof.
  rewrite /append_term3 /append_layer /_extend_s_matrix.
  case: (interface_matrices _ _) (erefl (interface_matrices (end_layer_solve_result S) l))
    => [[[i11 i12] i21] i22] /= Hi HT [Hp Hw] H.
  have [H1 Hm] := H _ _ _ _ Hi.
  rewrite /scale_rows /scale_cols /= !Hsolve_inv.
  have Hu := ext_u HT Hp H1 Hm.
  by split=> //; exact: ext_w Hw Hm Hu.
Qed.

Lemma append_complete (S : ScatteringMatrix RK) l t (x z : M) :
  (append_term3 S l : M) \is a GRing.unit ->
  exists p m, srel S x m p (s21 (append_layer S l t) * x + s22 (append_layer S l t) * z) /\
  (forall i11 i12 i21 i22,
     interface_matrices (end_layer_solve_result S) l = (i11, i12, i21, i22) ->
     i11 * (s11 (append_layer S l t) * x + s12 (append_layer S l t) * z)
       + i12 * (phase (eigenvalues l) t * z)
       = phase (eigenvalues (end_layer_solve_result S)) (end_layer_thickness S) * p /\
     m = i21 * (s11 (append_layer S l t) * x + s12 (append_layer S l t) * z)
       + i22 * (phase (eigenvalues l) t * z)).
Proof.
  rewrite /append_term3 /append_layer /_extend_s_matrix.
  case: (interface_matrices _ _) (erefl (interface_matrices (end_layer_solve_result S) l))
    => [[[i11 i12] i21] i22] /= Hi HT.
  rewrite /scale_rows /scale_cols /= !Hsolve_inv.
  set fd := phase _ (end_layer_thickness S).
  set fdn := phase (eigenvalues l) t.
  pose m := i21 * ((i11 - fd * s12 S * i21)^-1 * (fd * s11 S) * x
    + (i11 - fd * s12 S * i21)^-1 * ((fd * s12 S * i22 - i12) * fdn) * z)
    + i22 * (fdn * z).
  exists (s11 S * x + s12 S * m), m; split.
  - by split=> //; symmetry; apply: (ext_w (m := m)).
  - move=> ? ? ? ? [<- <- <- <-]; split=> //.
    exact: ext_complete.
Qed.

Lemma star_sound (a b : ScatteringMatrix RK) (x z u w p m : M) :
  (star_term a b : M) \is a GRing.unit ->
  srel (append_layer a (start_layer_solve_result b) (start_layer_thickness b))
    x m p w ->
  srel b p z u m ->
  srel (redheffer_star_product a b) x z u w.
Proof.
  rewrite /star_term /redheffer_star_product.
  move: (append_layer a _ _) => a' /= HU [Hp Hw] [Hu Hm].
  rewrite !Hsolve_inv.
  exact: (red_sound HU Hp Hm Hu Hw).
Qed.

Lemma star_complete (a b : ScatteringMatrix RK) (x z : M) :
  (star_term a b : M) \is a GRing.unit ->
  exists p m,
    srel (append_layer a (start_layer_solve_result b) (start_layer_thickness b))
      x m p (s21 (redheffer_star_product a b) * x
             + s22 (redheffer_star_product a b) * z) /\
    srel b p z (s11 (redheffer_star_product a b) * x
                + s12 (redheffer_star_product a b) * z) m.
Proof.
  rewrite /star_term /redheffer_star_product.
  move: (append_layer a _ _) => a' /= HU.
  rewrite !Hsolve_inv.
  have [p [m [Hp [Hm [Hu Hw]]]]] := red_complete (s11 a') (s21 a')
    (s22 a') (s11 b) (s12 b) (s22 b) x z HU.
  by exists p, m.
Qed.


Lemma s_matrix_ext (s s' : ScatteringMatrix RK) :
  s11 s = s11 s' -> s12 s = s12 s' -> s21 s = s21 s' -> s22 s = s22 s' ->
  start_layer_solve_result s = start_layer_solve_result s' ->
  start_layer_thickness s = start_layer_thickness s' ->
  end_layer_solve_result s = end_layer_solve_result s' ->
  end_layer_thickness s = end_layer_thickness s' -> s = s'.
Proof. by case: s => ????????; case: s' => ???????? /= -> -> -> -> -> -> -> ->. Qed.

(** C6: the star product is associative: for scattering matrices [A], [B],
    [C] over a ring of matrices, [redheffer_star_product(redheffer_star_product(A, B), C)]
    and [redheffer_star_product(A, redheffer_star_product(B, C))] are equal (all
    four blocks and the start and end layers and thicknesses), whenever the
    matrices that the two computations solve against are invertible and
    [utils.solve(a, b) = a^-1 b]. *)
Theorem redheffer_star_product_assoc (A B C : ScatteringMatrix RK) :
  (star_term A B : M) \is a GRing.unit ->
  (star_term B C : M) \is a GRing.unit ->
  (star_term (redheffer_star_product A B) C : M) \is a GRing.unit ->
  (star_term A (redheffer_star_product B C) : M) \is a GRing.unit ->
  (append_term3 B (start_layer_solve_result C) : M) \is a GRing.unit ->
  (append_term3 (redheffer_star_product A B) (start_layer_solve_result C) : M)
    \is a GRing.unit ->
  redheffer_star_product (redheffer_star_product A B) C =
  redheffer_star_product A (redheffer_star_product B C).
Proof.
  move=> HAB HBC HAB_C HA_BC HTB HTAB.
  set L := redheffer_star_product (redheffer_star_product A B) C.
  set R := redheffer_star_product A (redheffer_star_product B C).
  have key : forall x z : M,
      srel R x z (s11 L * x + s12 L * z) (s21 L * x + s22 L * z).
    move=> x z.
    have [p1 [m1 [[Hp1 Hw] HC]]] := star_complete x z HAB_C.
    have [p2 [m2 [[Hp2 Hw2] Hi]]] :=
      append_complete (start_layer_thickness C) x m1 HTAB.
    rewrite -Hp1 -Hw in Hi Hw2.
    have [p3 [m3 [[Hp3 Hw3] [Hu3 Hm3]]]] := star_complete x m2 HAB.
    rewrite -Hp2 -Hw2 in Hu3 Hw3.
    have HE2 := append_sound HTB (conj Hu3 Hm3) Hi.
    have HBC' := star_sound HBC HE2 HC.
    exact: star_sound HA_BC (conj Hp3 Hw3) HBC'.
  have [E11 E21] := key 1 0.
  have [E12 E22] := key 0 1.
  rewrite !mulr1 !mulr0 !addr0 in E11 E21.
  rewrite !mulr1 !mulr0 !add0r in E12 E22.
  by apply: s_matrix_ext.
Qed.

End Star.

(** Rescaling a matrix by [set_end_layer_thickness] or
    [set_start_layer_thickness] when the phase factors compose:
    [exp(1j q (t1 - t0)) exp(1j q (t2 - t1)) = exp(1j q (t2 - t0))] and
    [exp(1j q (t - t)) = 1]. *)
Section Rescale.

Hypothesis Hphase0 : forall (q : M) (t : T), phase q (tminus t t) = 1%R.
Hypothesis Hphase2 : forall (q : M) (t0 t1 t2 : T),
  (phase q (tminus t1 t0) * phase q (tminus t2 t1))%R = phase q (tminus t2 t0).

(** X12: [set_end_layer_thickness] to the end thickness the matrix already
    has returns it unchanged, and two successive calls with [t1] then [t2]
    give the single call with [t2]. *)
Theorem set_end_layer_thickness_round_trip (s : ScatteringMatrix RK) :
  set_end_layer_thickness s (end_layer_thickness s) = s /\
  forall t1 t2 : T,
    set_end_layer_thickness (set_end_layer_thickness s t1) t2 =
    set_end_layer_thickness s t2.
Proof.
  case: s => a b c d e f g h; split.
  - by rewrite /set_end_layer_thickness /= Hphase0 !mulr1.
  - move=> t1 t2; rewrite /set_end_layer_thickness /=.
    by rewrite -!mulrA Hphase2.
Qed.

(** X13: [set_start_layer_thickness] to the start thickness the matrix
    already has returns it unchanged, and two successive calls with [t1] then
    [t2] give the single call with [t2]. *)
Theorem set_start_layer_thickness_round_trip (s : ScatteringMatrix RK) :
  set_start_layer_thickness s (start_layer_thickness s) = s /\
  forall t1 t2 : T,
    set_start_layer_thickness (set_start_layer_thickness s t1) t2 =
    set_start_layer_thickness s t2.
Proof.
  case: s => a b c d e f g h; split.
  - by rewrite /set_start_layer_thickness /= Hphase0 !mulr1.
  - move=> t1 t2; rewrite /set_start_layer_thickness /=.
    by rewrite -!mulrA Hphase2.
Qed.

End Rescale.

End Ring.

(** The phase laws of [ratz_kernel]. *)
Lemma ratz_phase (t0 t : int) :
  (((2%:R : rat) ^ t0) * ((2%:R : rat) ^ (t - t0)))%R = ((2%:R : rat) ^ t)%R.
Proof. by rewrite -expfzDr // addrC subrK. Qed.

Lemma ratz_phase0 (t : int) : ((2%:R : rat) ^ (t - t))%R = 1%R.
Proof. by rewrite subrr expr0z. Qed.

Lemma ratz_phase2 (t0 t1 t2 : int) :
  (((2%:R : rat) ^ (t1 - t0)) * ((2%:R : rat) ^ (t2 - t1)))%R =
  ((2%:R : rat) ^ (t2 - t0))%R.
Proof. by rewrite -expfzDr // addrC addrA subrK. Qed.


Section Complex.

Import ComplexR.
Local Open Scope R_scope.

(** C4 (counterexample): a single layer with eigenvalue [-1j]: the matrix of
    [stack_s_matrix] at thickness [0], rescaled by [set_end_layer_thickness]
    to thickness [1], has [s22 = exp(1j * (-1j) * 1) = e], while the
    matrix rebuilt at thickness [1] is the identity ([s22 = 1]). *)
Lemma set_end_single_layer_counterexample :
  let l : LayerSolveResult kernel1 :=
    @Build_LayerSolveResult kernel1 (mkC 0 (-1)) C1 C1 None in
  map_result (fun s : ScatteringMatrix kernel1 => set_end_layer_thickness s 1)
    (stack_s_matrix [:: l] [:: 0]) <>
  stack_s_matrix [:: l] [:: 1].
Proof.
  move=> l E.
  move: (congr1 (fun r : result (ScatteringMatrix kernel1) =>
                   if r is Ok s then re (s22 s) else R0) E) => /=.
  set a := (X in exp X); set b := (X in cos X).
  have -> : a = IZR 1 by rewrite /a; Lra.lra.
  have -> : b = IZR 0 by rewrite /b; Lra.lra.
  rewrite cos_0 => E'.
  have := @exp_ineq1 _ R1_neq_R0; Lra.lra.
Qed.

End Complex.

(** Concrete stacks over [rat_kernel] at which the hypotheses of the theorems
    above hold. *)

(** Witness of C3: a stack of two layers with two thicknesses. *)
Lemma scan_matches_stack_witness :
  let ls := [:: rat_layer 1 None; rat_layer 2%:R None] in
  let ts := [:: tt; tt] in
  size ls = size ts /\
  map_result blocks (stack_s_matrix_scan ls ts) =
  map_result blocks (stack_s_matrix ls ts).
Proof.
  move=> ls ts; split; first by [].
  exact: (@scan_matches_stack rat unit unit _ _ _ _ _ ls ts erefl).
Defined.

(** Witness of C4 (amended): a stack of two layers over [ratz_kernel]
    built with thicknesses [0, 1], whose end thickness is changed to [3]. *)
Lemma set_end_thickness_rebuild_witness :
  let ls := [:: ratz_layer 1 None; ratz_layer 2%:R None] in
  size ls = (size [:: Posz 0]).+1 /\ (2 <= size ls)%N /\
  map_result (fun s : ScatteringMatrix ratz_kernel => set_end_layer_thickness s (Posz 3))
    (stack_s_matrix ls (rcons [:: Posz 0] (Posz 1))) =
  stack_s_matrix ls (rcons [:: Posz 0] (Posz 3)).
Proof.
  move=> ls; split; first by []; split; first by [].
  exact: (@set_end_thickness_rebuild rat int unit _ _ _ _ _
            (fun _ t0 t => ratz_phase t0 t) (fun A B D => esym (mulrA _ _ _))
            ls [:: Posz 0] (Posz 1) (Posz 3) erefl erefl).
Defined.

(** Witness of C6: layers with eigenvalues [1], [2] and [1]; every matrix
    solved against is invertible. *)
Lemma redheffer_star_product_assoc_witness :
  let A := identity_s_matrix (rat_layer 1 None) tt in
  let B := identity_s_matrix (rat_layer 2%:R None) tt in
  let C := identity_s_matrix (rat_layer 1 None) tt in
  (star_term A B : rat) \is a GRing.unit /\
  (star_term B C : rat) \is a GRing.unit /\
  (star_term (redheffer_star_product A B) C : rat) \is a GRing.unit /\
  (star_term A (redheffer_star_product B C) : rat) \is a GRing.unit /\
  (append_term3 B (start_layer_solve_result C) : rat) \is a GRing.unit /\
  (append_term3 (redheffer_star_product A B) (start_layer_solve_result C) : rat)
    \is a GRing.unit /\
  redheffer_star_product (redheffer_star_product A B) C =
  redheffer_star_product A (redheffer_star_product B C).
Proof.
  move=> A B C.
  have H1 : (star_term A B : rat) \is a GRing.unit by vm_compute.
  have H2 : (star_term B C : rat) \is a GRing.unit by vm_compute.
  have H3 : (star_term (redheffer_star_product A B) C : rat) \is a GRing.unit
    by vm_compute.
  have H4 : (star_term A (redheffer_star_product B C) : rat) \is a GRing.unit
    by vm_compute.
  have H5 : (append_term3 B (start_layer_solve_result C) : rat) \is a GRing.unit
    by vm_compute.
  have H6 : (append_term3 (redheffer_star_product A B) (start_layer_solve_result C)
    : rat) \is a GRing.unit by vm_compute.
  do 6 (split; first by []).
  exact: (@redheffer_star_product_assoc rat unit unit _ _ _ _ _ (fun _ _ => erefl)
            A B C H1 H2 H3 H4 H5 H6).
Defined.

(** Witness of X1: three layers, the middle one with a tangent vector field. *)
Lemma stack_s_matrices_substacks_witness :
  let ls := [:: rat_layer 1 None; rat_layer 2%:R (Some tt); rat_layer 1 None] in
  let ts := [:: tt; tt; tt] in
  size ls = size ts /\ (0 < size ls)%N /\
  exists ss, _stack_s_matrices ls ts = Ok ss /\ size ss = size ls /\
  forall d dl dt k, (k < size ls)%N ->
    start_layer_solve_result (nth d ss k) = strip_tangent (nth dl ls 0) /\
    start_layer_thickness (nth d ss k) = nth dt ts 0 /\
    end_layer_solve_result (nth d ss k) = strip_tangent (nth dl ls k) /\
    end_layer_thickness (nth d ss k) = nth dt ts k.
Proof.
  move=> ls ts; split; first by []; split; first by [].
  exact: (@stack_s_matrices_substacks rat_kernel ls ts erefl erefl).
Defined.

(** Witness of X2: the prefix of length [2] of a stack of three layers. *)
Lemma stack_s_matrices_prefix_witness :
  let ls := [:: rat_layer 1 None; rat_layer 2%:R (Some tt); rat_layer 1 None] in
  let ts := [:: tt; tt; tt] in
  size ls = size ts /\ (0 < 2)%N /\
  map_result (take 2) (_stack_s_matrices ls ts) =
  _stack_s_matrices (take 2 ls) (take 2 ts).
Proof.
  move=> ls ts; split; first by []; split; first by [].
  exact: (@stack_s_matrices_prefix rat_kernel ls ts 2 erefl erefl).
Defined.

(** Witness of X3: a stack of two layers extended by a third one. *)
Lemma stack_s_matrix_append_witness :
  let ls := [:: rat_layer 1 None; rat_layer 2%:R None] in
  let ts := [:: tt; tt] in
  let l := rat_layer 3%:R (Some tt) in
  size ls = size ts /\ (2 <= size ls)%N /\
  stack_s_matrix (rcons ls l) (rcons ts tt) =
  map_result (fun s => append_layer s (strip_tangent l) tt) (stack_s_matrix ls ts).
Proof.
  move=> ls ts l; split; first by []; split; first by [].
  exact: (@stack_s_matrix_append rat_kernel ls ts l tt erefl erefl).
Defined.

(** Witness of X4: a stack of three layers. *)
Lemma stack_s_matrices_interior_substacks_witness :
  let ls := [:: rat_layer 1 None; rat_layer 2%:R (Some tt); rat_layer 1 None] in
  let ts := [:: tt; tt; tt] in
  size ls = size ts /\ (0 < size ls)%N /\
  exists ps, stack_s_matrices_interior ls ts = Ok ps /\ size ps = size ls /\
  forall d dl dt k, (k < size ls)%N ->
    start_layer_solve_result (nth d ps k).1 = strip_tangent (nth dl ls 0) /\
    start_layer_thickness (nth d ps k).1 = nth dt ts 0 /\
    end_layer_solve_result (nth d ps k).1 = strip_tangent (nth dl ls k) /\
    end_layer_thickness (nth d ps k).1 = nth dt ts k /\
    start_layer_solve_result (nth d ps k).2 = strip_tangent (nth dl ls k) /\
    start_layer_thickness (nth d ps k).2 = nth dt ts k /\
    end_layer_solve_result (nth d ps k).2 = strip_tangent (nth dl ls (size ls).-1) /\
    end_layer_thickness (nth d ps k).2 = nth dt ts (size ls).-1.
Proof.
  move=> ls ts; split; first by []; split; first by [].
  exact: (@stack_s_matrices_interior_substacks rat_kernel ls ts erefl erefl).
Defined.

(** Witness of X5: a stack of three layers. *)
Lemma stack_s_matrices_interior_identity_ends_witness :
  let ls := [:: rat_layer 1 None; rat_layer 2%:R (Some tt); rat_layer 1 None] in
  let ts := [:: tt; tt; tt] in
  size ls = size ts /\ (0 < size ls)%N /\
  exists ps, stack_s_matrices_interior ls ts = Ok ps /\
  forall d dl dt,
    (nth d ps 0).1 = identity_s_matrix (strip_tangent (nth dl ls 0)) (nth dt ts 0) /\
    (nth d ps (size ls).-1).2 =
      identity_s_matrix (strip_tangent (nth dl ls (size ls).-1)) (nth dt ts (size ls).-1).
Proof.
  move=> ls ts; split; first by []; split; first by [].
  exact: (@stack_s_matrices_interior_identity_ends rat_kernel ls ts erefl erefl).
Defined.

(** Witness of X6: a stack of two layers, the last one with a tangent
    vector field. *)
Lemma stack_s_matrix_scan_ends_witness :
  let ls := [:: rat_layer 1 None; rat_layer 2%:R (Some tt)] in
  let ts := [:: tt; tt] in
  size ls = size ts /\ (0 < size ls)%N /\
  exists s, stack_s_matrix_scan ls ts = Ok s /\
  forall dl dt,
    start_layer_solve_result s = nth dl ls 0 /\
    start_layer_thickness s = nth dt ts 0 /\
    end_layer_solve_result s = nth dl ls (size ls).-1 /\
    end_layer_thickness s = nth dt ts (size ts).-1.
Proof.
  move=> ls ts; split; first by []; split; first by [].
  exact: (@stack_s_matrix_scan_ends rat_kernel ls ts erefl erefl).
Defined.

(** Witness of X9: a stack of three layers, one with a tangent vector
    field. *)
Lemma stack_s_matrix_is_scan_of_stripped_witness :
  let ls := [:: rat_layer 1 None; rat_layer 2%:R (Some tt); rat_layer 1 None] in
  let ts := [:: tt; tt; tt] in
  size ls = size ts /\
  stack_s_matrix ls ts = stack_s_matrix_scan (map strip_tangent ls) ts.
Proof.
  move=> ls ts; split; first by [].
  exact: (@stack_s_matrix_is_scan_of_stripped rat unit unit _ _ _ _ _ ls ts erefl).
Defined.

(** Witness of X10: [a^-1 b] with [a = 1] is [b]. *)
Lemma star_identity_right_witness :
  let A := append_layer (identity_s_matrix (rat_layer 1 None) tt) (rat_layer 2%:R None) tt in
  let l := rat_layer 3%:R None in
  redheffer_star_product A (identity_s_matrix l tt) = append_layer A l tt.
Proof.
  move=> A l.
  apply: (@star_identity_right rat unit unit _ _ _ _ _ A l tt) => B.
  by rewrite /= invr1 mul1r.
Defined.

(** Witness of X11: a stack of three layers over [ratz_kernel] built with
    thicknesses [1, 0, 2], whose start thickness is changed to [3]. *)
Lemma set_start_thickness_rebuild_witness :
  let ls := [:: ratz_layer 1 None; ratz_layer 2%:R None; ratz_layer 1 None] in
  size ls = (size [:: Posz 0; Posz 2]).+1 /\ (2 <= size ls)%N /\
  map_result (fun s : ScatteringMatrix ratz_kernel => set_start_layer_thickness s (Posz 3))
    (stack_s_matrix ls (Posz 1 :: [:: Posz 0; Posz 2])) =
  stack_s_matrix ls (Posz 3 :: [:: Posz 0; Posz 2]).
Proof.
  move=> ls; split; first by []; split; first by [].
  exact: (@set_start_thickness_rebuild rat int unit _ _ _ _ _
            (fun _ t0 t => ratz_phase t0 t) (fun A B D => esym (mulrA _ _ _))
            ls [:: Posz 0; Posz 2] (Posz 1) (Posz 3) erefl erefl).
Defined.

(** Witness of X12: a matrix over [ratz_kernel] with end thickness [1],
    rescaled to [2] then [5]. *)
Lemma set_end_layer_thickness_round_trip_witness :
  let l := ratz_layer 1 None in
  let s := @Build_ScatteringMatrix ratz_kernel 1%R 0%R 0%R 1%R l (Posz 0) l (Posz 1) in
  (forall (q : rat) (t : int), ((2%:R : rat) ^ (t - t))%R = 1%R) /\
  (forall (q : rat) (t0 t1 t2 : int),
     (((2%:R : rat) ^ (t1 - t0)) * ((2%:R : rat) ^ (t2 - t1)))%R =
     ((2%:R : rat) ^ (t2 - t0))%R) /\
  set_end_layer_thickness s (end_layer_thickness s) = s /\
  set_end_layer_thickness (set_end_layer_thickness s (Posz 2)) (Posz 5) =
  set_end_layer_thickness s (Posz 5).
Proof.
  move=> l s.
  have H0 (q : rat) (t : int) := ratz_phase0 t.
  have H2 (q : rat) (t0 t1 t2 : int) := ratz_phase2 t0 t1 t2.
  have [E1 E2] := @set_end_layer_thickness_round_trip rat int unit _ _ _ _ _ H0 H2 s.
  split; first exact: H0; split; first exact: H2.
  by split; [exact: E1 | exact: E2].
Defined.

(** Witness of X13: a matrix over [ratz_kernel] with start thickness [0],
    rescaled to [2] then [5]. *)
Lemma set_start_layer_thickness_round_trip_witness :
  let l := ratz_layer 1 None in
  let s := @Build_ScatteringMatrix ratz_kernel 1%R 0%R 0%R 1%R l (Posz 0) l (Posz 1) in
  (forall (q : rat) (t : int), ((2%:R : rat) ^ (t - t))%R = 1%R) /\
  (forall (q : rat) (t0 t1 t2 : int),
     (((2%:R : rat) ^ (t1 - t0)) * ((2%:R : rat) ^ (t2 - t1)))%R =
     ((2%:R : rat) ^ (t2 - t0))%R) /\
  set_start_layer_thickness s (start_layer_thickness s) = s /\
  set_start_layer_thickness (set_start_layer_thickness s (Posz 2)) (Posz 5) =
  set_start_layer_thickness s (Posz 5).
Proof.
  move=> l s.
  have H0 (q : rat) (t : int) := ratz_phase0 t.
  have H2 (q : rat) (t0 t1 t2 : int) := ratz_phase2 t0 t1 t2.
  have [E1 E2] := @set_start_layer_thickness_round_trip rat int unit _ _ _ _ _ H0 H2 s.
  split; first exact: H0; split; first exact: H2.
  by split; [exact: E1 | exact: E2].
Defined.

End ScatteringFacts.

Module EigFacts.

Import Eig Order.POrderTheory Order.TotalTheory.
Local Open Scope ring_scope.

Section Facts.

Variable F : realFieldType.

Lemma entry_mk_mat (n : nat) (f : nat -> nat -> cplx F) (i j : nat) :
  (i < n)%N -> (j < n)%N -> entry (mk_mat n f) i j = f i j.
Proof.
  move=> Hi Hj; rewrite /entry /mk_mat.
  rewrite (nth_map 0) ?size_iota // nth_iota // add0n.
  by rewrite (nth_map 0) ?size_iota // nth_iota // add0n.
Qed.

Lemma foldr_max_ge (s : seq F) x : x \in s -> x <= foldr Num.max 0 s.
Proof.
  elim: s => [|y s IH] //=; rewrite inE => /orP [/eqP ->|/IH H].
  - by rewrite le_max lexx.
  - by rewrite le_max H orbT.
Qed.

Lemma foldr_max_mem (s : seq F) : foldr Num.max 0 s \in 0 :: s.
Proof.
  elim: s => [|y s IH] /=; first by rewrite inE.
  rewrite /Num.max; case: ifP => _; last by rewrite !inE eqxx orbT.
  move: IH; rewrite !inE => /orP [->|->] //; by rewrite !orbT.
Qed.

Lemma delta_eig_row (ev : cvec F) (r : nat) :
  (r < size ev)%N ->
  nth [::] (delta_eig ev) r = [seq csub ec (nth (czero F) ev r) | ec <- ev].
Proof. by move=> Hr; rewrite /delta_eig (nth_map (czero F)). Qed.

Lemma cabs2_csub_self (x : cplx F) : cabs2 (csub x x) = 0.
Proof. by rewrite /cabs2 /= !subrr expr0n addr0. Qed.

Lemma amax_abs2_ge (ev : cvec F) (r c : nat) :
  (r < size ev)%N -> (c < size ev)%N ->
  cabs2 (csub (nth (czero F) ev c) (nth (czero F) ev r)) <= amax_abs2 (delta_eig ev).
Proof.
  move=> Hr Hc; rewrite /amax_abs2.
  set g := fun row : seq (cplx F) => foldr Num.max 0 [seq cabs2 z | z <- row].
  have Hr' : (r < size [seq g row | row <- delta_eig ev])%N by rewrite !size_map.
  apply: le_trans (foldr_max_ge (mem_nth 0 Hr')).
  rewrite (nth_map [::]) ?size_map // delta_eig_row // /g.
  have Hc' : (c < size [seq cabs2 z | z <- [seq csub ec (nth (czero F) ev r) | ec <- ev]])%N
    by rewrite !size_map.
  apply: le_trans (foldr_max_ge (mem_nth 0 Hc')).
  by rewrite (nth_map (czero F)) ?size_map // (nth_map (czero F)).
Qed.

Lemma amax_abs2_attained (ev : cvec F) :
  (0 < size ev)%N ->
  exists r c, (r < size ev)%N /\ (c < size ev)%N /\
    amax_abs2 (delta_eig ev) = cabs2 (csub (nth (czero F) ev c) (nth (czero F) ev r)).
Proof.
  move=> Hn.
  have Hzero : exists r c, (r < size ev)%N /\ (c < size ev)%N /\
      0 = cabs2 (csub (nth (czero F) ev c) (nth (czero F) ev r)).
    by exists 0%N, 0%N; rewrite cabs2_csub_self.
  rewrite /amax_abs2.
  move: (foldr_max_mem [seq foldr Num.max 0 [seq cabs2 z | z <- row] | row <- delta_eig ev]).
  rewrite inE => /orP [/eqP -> //|/(nthP 0) [r Hr <-]].
  rewrite size_map /delta_eig size_map in Hr.
  rewrite (nth_map [::]) /delta_eig ?size_map // -/(delta_eig ev) delta_eig_row //.
  move: (foldr_max_mem [seq cabs2 z | z <- [seq csub ec (nth (czero F) ev r) | ec <- ev]]).
  rewrite inE => /orP [/eqP -> //|/(nthP 0) [c Hc <-]].
  rewrite !size_map in Hc.
  exists r, c; split=> //; split=> //.
  by rewrite (nth_map (czero F)) ?size_map // (nth_map (czero F)).
Qed.

Lemma f_broadened_entry (eps_relative : F) (ev : cvec F) (i j : nat) :
  (i < size ev)%N -> (j < size ev)%N ->
  entry (f_broadened eps_relative ev) i j =
  if i == j then czero F else
    let d := csub (nth (czero F) ev j) (nth (czero F) ev i) in
    cdiv_real (cconj d) (cabs2 d + eig_eps eps_relative ev).
Proof.
  move=> Hi Hj; rewrite /f_broadened entry_mk_mat //; case: (i == j) => //.
  rewrite /entry (nth_map [::]) /delta_eig ?size_map // -/(delta_eig ev).
  rewrite delta_eig_row // (nth_map (czero F)) ?size_map //.
  by rewrite (nth_map (czero F)).
Qed.

(** C2: entry [(i, j)] of the broadened matrix of [_eig_bwd] is [0] on the
    diagonal and [conj(delta_ij) / (|delta_ij|^2 + eps)] elsewhere, where
    [delta_ij = eigenvalues[j] - eigenvalues[i]] (the entry of [delta_eig]),
    [eps = max(eps_relative * m, _EIG_EPS_MINIMUM)], and [m] is the largest
    [|delta_rc|^2] over all [r, c]; the default constants are [1e-12] and
    [1e-24]. *)
Theorem f_broadened_lorentzian (eps_relative : F) (ev : cvec F) (i j : nat) :
  (i < size ev)%N -> (j < size ev)%N ->
  let delta r c := csub (nth (czero F) ev c) (nth (czero F) ev r) in
  let m := amax_abs2 (delta_eig ev) in
  entry (f_broadened eps_relative ev) i j =
    (if i == j then czero F else
       cdiv_real (cconj (delta i j))
         (cabs2 (delta i j) + Num.max (eps_relative * m) (_EIG_EPS_MINIMUM F))) /\
  (forall r c, (r < size ev)%N -> (c < size ev)%N -> cabs2 (delta r c) <= m) /\
  (exists r c, (r < size ev)%N /\ (c < size ev)%N /\ m = cabs2 (delta r c)) /\
  _EIG_EPS_RELATIVE F = (10%:R ^+ 12)^-1 /\
  _EIG_EPS_MINIMUM F = (10%:R ^+ 24)^-1.
Proof.
  move=> Hi Hj delta m; split; first exact: f_broadened_entry.
  split; first by move=> r c; exact: amax_abs2_ge.
  split=> //; apply: amax_abs2_attained.
  by apply: leq_ltn_trans Hi.
Qed.

(** C9: the primal evaluation of [eig] (and the primal part of [_eig_fwd])
    does not depend on [eps_relative]. *)
Theorem eig_forward_ignores_eps (eig_impl : cmat F -> cvec F * cmat F)
    (matrix : cmat F) (e1 e2 : F) :
  eig eig_impl matrix e1 = eig eig_impl matrix e2 /\
  (_eig_fwd eig_impl matrix e1).1 = (_eig_fwd eig_impl matrix e2).1.
Proof. by split=> //; rewrite /_eig_fwd; case: (eig_impl matrix). Qed.

Lemma map_zip4_set_nth {A B C D E : Type} (g : (A * B) * (C * D) -> E)
    (a : seq A) (b : seq B) (c : seq C) (d : seq D) (j : nat)
    a0 b0 c0 d0 e0 a' b' c' d' :
  size b = size a -> size c = size a -> size d = size a -> (j < size a)%N ->
  [seq g x | x <- zip (zip (set_nth a0 a j a') (set_nth b0 b j b'))
                      (zip (set_nth c0 c j c') (set_nth d0 d j d'))] =
  set_nth e0 [seq g x | x <- zip (zip a b) (zip c d)] j (g ((a', b'), (c', d'))).
Proof.
  elim: a b c d j => [|x a IH] [|y b] [|z c] [|w d] [|j] //= [Hb] [Hc] [Hd] Hj.
  by rewrite IH.
Qed.

(** C8: in the batched backward pass, replacing batch element [j] (its
    eigenvalues, eigenvectors and cotangents, as when its matrix changes)
    leaves the regularization scale [eps] and the returned gradient of every
    other batch element [i] unchanged. *)
Theorem eig_bwd_batch_isolation (linalg_solve : cmat F -> cmat F -> cmat F)
    (evs : seq (cvec F)) (evecs : seq (cmat F)) (gvs : seq (cvec F))
    (gvecs : seq (cmat F)) (eps_relative : F) (j i : nat)
    (ev' : cvec F) (evec' : cmat F) (gv' : cvec F) (gvec' : cmat F) :
  size evecs = size evs -> size gvs = size evs -> size gvecs = size evs ->
  (j < size evs)%N -> i != j ->
  eig_eps eps_relative (nth [::] (set_nth [::] evs j ev') i) =
  eig_eps eps_relative (nth [::] evs i) /\
  nth [::] (_eig_bwd_batched linalg_solve
              (set_nth [::] evs j ev', set_nth [::] evecs j evec', eps_relative)
              (set_nth [::] gvs j gv', set_nth [::] gvecs j gvec')).1 i =
  nth [::] (_eig_bwd_batched linalg_solve (evs, evecs, eps_relative)
              (gvs, gvecs)).1 i.
Proof.
  move=> Hb Hc Hd Hj Hij; split; first by rewrite nth_set_nth /= (negbTE Hij).
  rewrite /_eig_bwd_batched /=.
  rewrite (@map_zip4_set_nth _ _ _ _ _ _ _ _ _ _ _ _ _ _ _ [::]) //.
  by rewrite nth_set_nth /= (negbTE Hij).
Qed.

Import Num.Theory.

Lemma eps_min_pos : 0 < _EIG_EPS_MINIMUM F.
Proof. by rewrite /_EIG_EPS_MINIMUM invr_gt0 exprn_gt0 // ltr0n. Qed.

Lemma cabs2_ge0 (z : cplx F) : 0 <= cabs2 z.
Proof. by rewrite /cabs2 addr_ge0 // sqr_ge0. Qed.

Lemma eig_eps_ge_min (e : F) ev : _EIG_EPS_MINIMUM F <= eig_eps e ev.
Proof. by rewrite /eig_eps le_max lexx orbT. Qed.

Lemma eig_eps_pos (e : F) ev : 0 < eig_eps e ev.
Proof. exact: lt_le_trans eps_min_pos (eig_eps_ge_min e ev). Qed.

(** X14: whatever [eps_relative] (even zero or negative), the scale [eps]
    of [_eig_bwd] is at least [_EIG_EPS_MINIMUM], so every denominator
    [|delta|^2 + eps] of [f_broadened] is positive: no division by zero. *)
Theorem eig_eps_denominator_positive (eps_relative : F) (ev : cvec F) :
  _EIG_EPS_MINIMUM F <= eig_eps eps_relative ev /\
  forall z : cplx F, 0 < cabs2 z + eig_eps eps_relative ev.
Proof.
  split; first exact: eig_eps_ge_min.
  move=> z; apply: lt_le_trans (eig_eps_pos eps_relative ev) _.
  by rewrite lerDr cabs2_ge0.
Qed.

(** X16: [f_broadened] is antisymmetric: entry [(j, i)] is the negation of
    entry [(i, j)]. *)
Theorem f_broadened_antisymmetric (eps_relative : F) (ev : cvec F) (i j : nat) :
  (i < size ev)%N -> (j < size ev)%N ->
  re (entry (f_broadened eps_relative ev) j i) =
    - re (entry (f_broadened eps_relative ev) i j) /\
  im (entry (f_broadened eps_relative ev) j i) =
    - im (entry (f_broadened eps_relative ev) i j).
Proof.
  move=> Hi Hj; rewrite !f_broadened_entry // eq_sym.
  case: (i == j); first by rewrite /= oppr0.
  case: (nth (czero F) ev i) (nth (czero F) ev j) => [a b] [c d].
  rewrite /cabs2 /cdiv_real /cconj /csub /=.
  have -> : (a - c) ^+ 2 + (b - d) ^+ 2 = (c - a) ^+ 2 + (d - b) ^+ 2.
    by rewrite -(opprB c a) -(opprB d b) !sqrrN.
  by split; rewrite -mulNr ?opprK opprB.
Qed.

(** X17: for two equal eigenvalues [i] and [j] (a degenerate pair), entry
    [(i, j)] of [f_broadened] is [0] instead of a division by zero. *)
Theorem f_broadened_degenerate_zero (eps_relative : F) (ev : cvec F) (i j : nat) :
  (i < size ev)%N -> (j < size ev)%N ->
  nth (czero F) ev i = nth (czero F) ev j ->
  entry (f_broadened eps_relative ev) i j = czero F.
Proof.
  move=> Hi Hj E; rewrite f_broadened_entry //; case: (i == j) => //=.
  rewrite E; case: (nth (czero F) ev j) => a b.
  by rewrite /cdiv_real /cconj /csub /czero /= !subrr oppr0 !mul0r.
Qed.

(** X18: the broadening bounds every entry of [f_broadened]:
    [|f_ij|^2 * 4 eps <= 1], whatever the eigenvalue gap. *)
Theorem f_broadened_bounded (eps_relative : F) (ev : cvec F) (i j : nat) :
  (i < size ev)%N -> (j < size ev)%N ->
  cabs2 (entry (f_broadened eps_relative ev) i j) * (4%:R * eig_eps eps_relative ev) <= 1.
Proof.
  move=> Hi Hj; rewrite f_broadened_entry //; case: (i == j).
  - by rewrite /cabs2 /= expr0n /= addr0 mul0r ler01.
  - have HE := eig_eps_pos eps_relative ev.
    move: (eig_eps eps_relative ev) HE => E HE /=.
    set d := csub _ _.
    have Ha := cabs2_ge0 d.
    have HD : 0 < cabs2 d + E by apply: lt_le_trans HE _; rewrite lerDr.
    have -> : cabs2 (cdiv_real (cconj d) (cabs2 d + E)) = cabs2 d / (cabs2 d + E) ^+ 2.
      rewrite /cabs2 /cdiv_real /cconj /=.
      rewrite !expr_div_n sqrrN -mulrDl.
      done.
    rewrite mulrAC ler_pdivrMr ?exprn_gt0 // mul1r -subr_ge0.
    have -> : (cabs2 d + E) ^+ 2 - cabs2 d * (4%:R * E) = (cabs2 d - E) ^+ 2 by ring.
    exact: sqr_ge0.
Qed.

Lemma delta_eig_shift (c : cplx F) (ev : cvec F) :
  delta_eig (map (cadd c) ev) = delta_eig ev.
Proof.
  rewrite /delta_eig -map_comp; apply: eq_map => er /=.
  rewrite -map_comp; apply: eq_map => ec /=.
  case: c ec er => [a b] [x y] [u v]; rewrite /csub /cadd /=.
  by congr Cplx; ring.
Qed.

(** X19: shifting every eigenvalue by the same complex constant [c] leaves
    the result of [_eig_bwd] unchanged. *)
Theorem eig_bwd_shift_invariant (linalg_solve : cmat F -> cmat F -> cmat F)
    (c : cplx F) (ev : cvec F) (evec : cmat F) (eps_relative : F) grads :
  _eig_bwd linalg_solve (map (cadd c) ev, evec, eps_relative) grads =
  _eig_bwd linalg_solve (ev, evec, eps_relative) grads.
Proof.
  case: grads => gv gvec.
  by rewrite /_eig_bwd /f_broadened /eig_eps delta_eig_shift size_map.
Qed.
(** X15: when all [n] eigenvalues are equal (any positive number [n] of
    them, [n = 1] included), [eps] is [_EIG_EPS_MINIMUM], whatever
    [eps_relative]. *)
Theorem eig_eps_fully_degenerate (eps_relative : F) (n : nat) (x : cplx F) :
  (0 < n)%N ->
  eig_eps eps_relative (nseq n x) = _EIG_EPS_MINIMUM F.
Proof.
  move=> _; rewrite /eig_eps.
  have -> : amax_abs2 (delta_eig (nseq n x)) = 0.
    have Hz m : foldr Num.max 0 (nseq m (0 : F)) = 0.
      by elim: m => //= m ->; rewrite maxxx.
    rewrite /amax_abs2 /delta_eig map_nseq /= map_nseq map_nseq /=.
    by rewrite map_nseq cabs2_csub_self Hz Hz.
  by rewrite mulr0 max_r // ltW // eps_min_pos.
Qed.
End Facts.

(** Witness of C2: two eigenvalues [1] and [1j], entry [(0, 1)] at the
    default [eps_relative]. *)
Lemma f_broadened_lorentzian_witness :
  let ev := [:: Cplx (1 : rat) 0; Cplx 0 1] in
  (0 < size ev)%N /\ (1 < size ev)%N /\
  entry (f_broadened (_EIG_EPS_RELATIVE rat) ev) 0 1 =
  cdiv_real (cconj (csub (nth (czero rat) ev 1) (nth (czero rat) ev 0)))
    (cabs2 (csub (nth (czero rat) ev 1) (nth (czero rat) ev 0))
     + Num.max (_EIG_EPS_RELATIVE rat * amax_abs2 (delta_eig ev))
         (_EIG_EPS_MINIMUM rat)).
Proof.
  move=> ev; split; first by []; split; first by [].
  exact: (proj1 (@f_broadened_lorentzian rat (_EIG_EPS_RELATIVE rat) ev 0 1
                   erefl erefl)).
Defined.

(** Witness of C8: a batch of two [1 x 1] problems; batch element [0] is
    replaced and element [1] is observed. *)
Lemma eig_bwd_batch_isolation_witness :
  let c (x : rat) := Cplx x 0 in
  let evs := [:: [:: c 1]; [:: c 2%:R]] in
  let evecs := [:: [:: [:: c 1]]; [:: [:: c 1]]] in
  let solve (a b : cmat rat) := b in
  size evecs = size evs /\ size evs = size evs /\ size evecs = size evs /\
  (0 < size evs)%N /\ (1 != 0 :> nat) /\
  eig_eps 1 (nth [::] (set_nth [::] evs 0 [:: c 3%:R]) 1) =
  eig_eps 1 (nth [::] evs 1) /\
  nth [::] (_eig_bwd_batched solve
              (set_nth [::] evs 0 [:: c 3%:R], set_nth [::] evecs 0 [:: [:: c 1]], 1)
              (set_nth [::] evs 0 [:: c 1], set_nth [::] evecs 0 [:: [:: c 1]])).1 1 =
  nth [::] (_eig_bwd_batched solve (evs, evecs, 1) (evs, evecs)).1 1.
Proof.
  move=> c evs evecs solve.
  do 5 (split; first by []).
  exact: (@eig_bwd_batch_isolation rat solve evs evecs evs evecs 1 0 1
            [:: c 3%:R] [:: [:: c 1]] [:: c 1] [:: [:: c 1]]
            erefl erefl erefl erefl erefl).
Defined.

(** Witness of X16: two eigenvalues [1] and [1j]. *)
Lemma f_broadened_antisymmetric_witness :
  let ev := [:: Cplx (1 : rat) 0; Cplx 0 1] in
  (0 < size ev)%N /\ (1 < size ev)%N /\
  re (entry (f_broadened (_EIG_EPS_RELATIVE rat) ev) 1 0) =
    - re (entry (f_broadened (_EIG_EPS_RELATIVE rat) ev) 0 1) /\
  im (entry (f_broadened (_EIG_EPS_RELATIVE rat) ev) 1 0) =
    - im (entry (f_broadened (_EIG_EPS_RELATIVE rat) ev) 0 1).
Proof.
  move=> ev; split; first by []; split; first by [].
  exact: (@f_broadened_antisymmetric rat (_EIG_EPS_RELATIVE rat) ev 0 1 erefl erefl).
Defined.

(** Witness of X17: the eigenvalue [1] twice. *)
Lemma f_broadened_degenerate_zero_witness :
  let ev := [:: Cplx (1 : rat) 0; Cplx 1 0] in
  (0 < size ev)%N /\ (1 < size ev)%N /\ nth (czero rat) ev 0 = nth (czero rat) ev 1 /\
  entry (f_broadened (_EIG_EPS_RELATIVE rat) ev) 0 1 = czero rat.
Proof.
  move=> ev; split; first by []; split; first by []; split; first by [].
  exact: (@f_broadened_degenerate_zero rat (_EIG_EPS_RELATIVE rat) ev 0 1
            erefl erefl erefl).
Defined.

(** Witness of X18: two eigenvalues [1] and [1j]. *)
Lemma f_broadened_bounded_witness :
  let ev := [:: Cplx (1 : rat) 0; Cplx 0 1] in
  (0 < size ev)%N /\ (1 < size ev)%N /\
  cabs2 (entry (f_broadened (_EIG_EPS_RELATIVE rat) ev) 0 1) *
    (4%:R * eig_eps (_EIG_EPS_RELATIVE rat) ev) <= 1.
Proof.
  move=> ev; split; first by []; split; first by [].
  exact: (@f_broadened_bounded rat (_EIG_EPS_RELATIVE rat) ev 0 1 erefl erefl).
Defined.

(** Witness of X15: the eigenvalue [1 + 2j] three times, at the default
    [eps_relative]. *)
Lemma eig_eps_fully_degenerate_witness :
  (0 < 3)%N /\
  eig_eps (_EIG_EPS_RELATIVE rat) (nseq 3 (Cplx (1 : rat) 2%:R)) =
  _EIG_EPS_MINIMUM rat.
Proof.
  split; first by [].
  exact: (@eig_eps_fully_degenerate rat (_EIG_EPS_RELATIVE rat) 3
            (Cplx (1 : rat) 2%:R) erefl).
Defined.

End EigFacts.
